(** * calcProfitLoss: the position-ledger matching engine

    A shallow embedding of [Matlab/MEX/Cpp/calcProfitLoss/calcProfitLoss.cpp]
    and the properties of its FIFO ledger, signal interpreter and output
    series.

    Conventions of the embedding.
    - A C++ [double] is a rational number ([Q]): every finite double is one,
      and the tests the code makes on signals ([abs], [int(.)], comparison
      with 0, 1, -1 and 0.5) are exact on doubles.  Rounding of the cash
      arithmetic is not modelled; the concrete runs below use small integers
      and halves, on which double arithmetic is exact.  Equality of doubles
      ([==], [!=]) is [Qeq_bool].
    - A C++ [int] is an integer ([Z]), added and negated without wrap-around.
      The source's [int] has 32 bits: signed overflow and the conversion of a
      double of magnitude 2^31 or more are undefined in C++, and there the
      embedding and the code part ways.  The properties that state a value
      the code computes in an [int] are therefore stated within the range of
      int ([signal_in_int], [state_in_int], [run_within_int]).  The explicit
      destructor call of line 391 is outside the model.
    - [abs] of a double is the [std::abs(double)] of [<cmath>]; [abs] of an
      int is [Z.abs].
    - Arrays behind raw pointers are lists; [rd a i] reads [a[i]].  The MEX
      input matrix [data] is stored column after column, as MATLAB does.
    - [mexErrMsgIdAndTxt] ends the call without results: [Abort].
      [front()] on an empty deque is undefined: [Undefined]. *)

From Stdlib Require Import ZArith QArith Qabs Qround Lia Lqa Sorted.
From stdpp Require Import base list.

Local Open Scope Q_scope.

(** ** Doubles and ints *)

(** [int(x)]: conversion of a double to int truncates toward zero.  It is
    the source's conversion for [|x| < 2^31] ([signal_in_int]); beyond, the
    source's conversion is undefined and this value is not the code's. *)
Definition int_cast (x : Q) : Z :=
  if Qle_bool 0 x then Qfloor x else Qceiling x.

(** [x > y] on doubles. *)
Definition Qgt_bool (x y : Q) : bool := negb (Qle_bool x y).

(** [a[i]] for an array behind a pointer. *)
Definition rd (a : list Q) (i : nat) : Q := default 0 (a !! i).

(** [mxCreateDoubleMatrix(n, 1, mxREAL)]: a zero-filled column. *)
Definition zeros (n : nat) : list Q := replicate n 0.

(** ** The ledger *)

Record tradeEntry : Type := mkTradeEntry {
  index : Z;
  quantity : Z;
  price : Q
}.

Definition createLineEntry (ID : Z) (qty : Z) (price : Q) : tradeEntry :=
  {| index := ID; quantity := qty; price := price |}.

Definition sumQty (x : list tradeEntry) : Z :=
  fold_left (fun sumOfQty it => (sumOfQty + quantity it)%Z) x 0%Z.

(** Modelled from the spec: [fraction] is declared in this file and defined
    in [myMath.h], which is not part of the sources at hand.  The spec calls
    a signal advanced or invalid according to its "nonzero fractional part":
    [fraction num] holds when [num] is not a whole number. *)
Definition fraction (num : Q) : bool :=
  negb (Qeq_bool num (inject_Z (int_cast num))).

(** Through [int(advSig)], the source's answer is defined for
    [|advSig| < 2^31] only. *)
Definition knownAdvSig (advSig : Q) : bool :=
  let frac := Qabs (advSig - inject_Z (int_cast advSig)) in
  Qeq_bool frac (1 # 2).

(** ** Outcomes of a call *)

Inductive mexError : Type :=
| ArrayMismatch (line : Z)
    (** "MATLAB:calcProfitLoss:ArrayMismatch" *)
| fractionUnknown (line : Z) (sig : Q).
    (** "calcProfitLoss:AdvancedSignal:fractionUnknown"; the message prints
        the signal ([%f]) and the source line, nothing else. *)

Inductive outcome (A : Type) : Type :=
| Done (a : A)
| Abort (e : mexError)
| Undefined.

Arguments Done {A} a.
Arguments Abort {A} e.
Arguments Undefined {A}.

#[global] Instance outcome_bind : MBind outcome := fun A B k o =>
  match o with
  | Done a => k a
  | Abort e => Abort e
  | Undefined => Undefined
  end.

(** ** Inputs, outputs and the state of the bar loop *)

Record mexInputs : Type := mkInputs {
  rowsData : nat;
  colsData : nat;
  dataIn : list Q;       (** [rowsData * colsData] prices, column-major *)
  rowsSig : nat;
  colsSig : nat;
  sigIn : list Q;        (** the signal column *)
  BIG_POINT : Q;
  COST : Q
}.

Record mexOutputs : Type := mkOutputs {
  cash_OUT : list Q;
  openEQ_OUT : list Q;
  netLiq_OUT : list Q;
  returns_OUT : list Q
}.

Record state : Type := mkState {
  openLedger : list tradeEntry;
  openPosition : Z;
  cashIdx : list Q;
  openEQIdx : list Q
}.

(** What the external boundary guarantees about shapes. *)
Definition valid_shape (inp : mexInputs) : Prop :=
  rowsData inp = rowsSig inp /\ colsSig inp = 1%nat /\
  (colsData inp = 2%nat \/ colsData inp = 4%nat) /\
  length (sigIn inp) = rowsSig inp /\
  length (dataIn inp) = (rowsData inp * colsData inp)%nat.

Definition shifter (inp : mexInputs) : nat :=
  if (colsData inp =? 4)%nat then 3%nat else 1%nat.

Definition SHIFT_OPEN : nat := 0.
Definition SHIFT_CLOSE (inp : mexInputs) : nat := (rowsData inp * shifter inp)%nat.

(** ** The signal scan *)

Fixpoint scan (sig : list Q) (sigIdx : nat) : bool * nat :=
  match sig with
  | [] => (false, sigIdx)
  | s :: rest =>
      if Qle_bool 1 (Qabs s) then (true, sigIdx) else scan rest (S sigIdx)
  end.

(** ** One bar of the loop *)

(** The test shared by the advanced and the integer handling. *)
Definition additive (openPosition : Z) (s : Q) : bool :=
  ((openPosition <=? 0)%Z && Qle_bool s (-1)) ||
  ((openPosition >=? 0)%Z && Qle_bool 1 s).

(** The body of both "liquidate everything" loops, for the front entry. *)
Definition liquidate_front (exec BP C : Q) (e : tradeEntry) (c : Q) : Q :=
  c + ((exec - price e) * inject_Z (quantity e) * BP)
    - (inject_Z (Z.abs (quantity e)) * C).

(** [while (!openLedger.empty()) { ...; openLedger.pop_front(); }]:
    the cash of the execution bar after the loop; the ledger is then empty. *)
Fixpoint liquidate (exec BP C : Q) (ledger : list tradeEntry) (c : Q) : Q :=
  match ledger with
  | [] => c
  | e :: rest => liquidate exec BP C rest (liquidate_front exec BP C e c)
  end.

(** The two bodies of the partial-liquidation loop. *)
Definition shrink_cash (exec BP C : Q) (e : tradeEntry) (needQty : Z) (c : Q) : Q :=
  c + ((exec - price e) * inject_Z (- needQty) * BP)
    - (inject_Z (Z.abs needQty) * C).

Definition remove_cash (exec BP C : Q) (e : tradeEntry) (c : Q) : Q :=
  c + ((exec - price e) * inject_Z (- quantity e) * BP)
    - (inject_Z (Z.abs (quantity e)) * C).

(** [while (needQty != 0) { ... }]: every turn that does not end the loop
    pops the front entry, so the loop is a recursion on the ledger. *)
Fixpoint reduce (exec BP C : Q) (ledger : list tradeEntry) (needQty : Z) (c : Q)
  : option (list tradeEntry * Q) :=
  if (needQty =? 0)%Z then Some (ledger, c) else
  match ledger with
  | [] => None
  | e :: rest =>
      if (Z.abs (quantity e) >? needQty)%Z then
        Some (createLineEntry (index e) (quantity e + needQty) (price e) :: rest,
              shrink_cash exec BP C e needQty c)
      else
        reduce exec BP C rest (needQty + quantity e) (remove_cash exec BP C e c)
  end.

(** Lines 251-297: the handling of an advanced (fractional) signal. *)
Definition advanced (inp : mexInputs) (ii : nat) (s : Q) (st : state) : outcome state :=
  if fraction s then
    if knownAdvSig s then
      if additive (openPosition st) s then Done st
      else
        if Qeq_bool (Qabs (s - inject_Z (int_cast s))) (1 # 2) then
          let exec := rd (dataIn inp) (ii + 1) in
          let c := liquidate exec (BIG_POINT inp) (COST inp) (openLedger st)
                     (rd (cashIdx st) (ii + 1)) in
          Done {| openLedger := [];
                  openPosition := 0;
                  cashIdx := <[(ii + 1)%nat := c]> (cashIdx st);
                  openEQIdx := openEQIdx st |}
        else Abort (fractionUnknown 286 s)
    else Abort (fractionUnknown 295 s)
  else Done st.

(** The branch taken at lines 299-368. *)
Inductive branch : Type := Additive | FullLiquidation | PartialLiquidation.

Definition branch_of (openPosition : Z) (s : Q) : branch :=
  if additive openPosition s then Additive
  else if (int_cast (Qabs s) >=? Z.abs openPosition)%Z then FullLiquidation
  else PartialLiquidation.

(** Lines 299-368: additive, full liquidation, partial liquidation.  The
    position and the quantities are added in [Z]: they are the code's as long
    as they stay in [int_range]. *)
Definition integer (inp : mexInputs) (ii : nat) (s : Q) (st : state) : outcome state :=
  let exec := rd (dataIn inp) (ii + 1) in
  match branch_of (openPosition st) s with
  | Additive =>
      Done {| openLedger := openLedger st ++ [createLineEntry (Z.of_nat ii) (int_cast s) exec];
              openPosition := openPosition st + int_cast s;
              cashIdx := cashIdx st;
              openEQIdx := openEQIdx st |}
  | FullLiquidation =>
      let c := liquidate exec (BIG_POINT inp) (COST inp) (openLedger st)
                 (rd (cashIdx st) (ii + 1)) in
      let openPosition' := (int_cast s + openPosition st)%Z in
      Done {| openLedger :=
                if (openPosition' =? 0)%Z then []
                else [createLineEntry (Z.of_nat ii) openPosition' exec];
              openPosition := openPosition';
              cashIdx := <[(ii + 1)%nat := c]> (cashIdx st);
              openEQIdx := openEQIdx st |}
  | PartialLiquidation =>
      let needQty := int_cast s in
      match reduce exec (BIG_POINT inp) (COST inp) (openLedger st) needQty
              (rd (cashIdx st) (ii + 1)) with
      | None => Undefined
      | Some (ledger', c) =>
          Done {| openLedger := ledger';
                  openPosition := int_cast (inject_Z (openPosition st) + s);
                  cashIdx := <[(ii + 1)%nat := c]> (cashIdx st);
                  openEQIdx := openEQIdx st |}
      end
  end.

(** Lines 383-386: the open equity of the entries on the ledger. *)
Definition mark (ref BP : Q) (ledger : list tradeEntry) (acc : Q) : Q :=
  fold_left (fun a e => a + ((ref - price e) * inject_Z (quantity e) * BP)) ledger acc.

(** Lines 380-387. *)
Definition mark_bar (inp : mexInputs) (ii : nat) (st : state) : state :=
  if (openPosition st =? 0)%Z then st
  else
    let ref := rd (dataIn inp) (ii + 1 + SHIFT_CLOSE inp) in
    {| openLedger := openLedger st;
       openPosition := openPosition st;
       cashIdx := cashIdx st;
       openEQIdx := <[(ii + 1)%nat := mark ref (BIG_POINT inp) (openLedger st)
                                        (rd (openEQIdx st) (ii + 1))]> (openEQIdx st) |}.

(** The action of bar [ii] (lines 248-370), before the open equity. *)
Definition act (inp : mexInputs) (ii : nat) (st : state) : outcome state :=
  let s := rd (sigIn inp) ii in
  if negb (Qeq_bool s 0) then
    st1 ← advanced inp ii s st;
    integer inp ii s st1
  else Done st.

(** The body of the [for] loop at line 246. *)
Definition bar (inp : mexInputs) (ii : nat) (st : state) : outcome state :=
  st1 ← act inp ii st;
  Done (mark_bar inp ii st1).

(** [n] turns of the loop, from bar [ii]. *)
Fixpoint iterate (inp : mexInputs) (n : nat) (ii : nat) (st : state) : outcome state :=
  match n with
  | O => Done st
  | S n' => st' ← bar inp ii st; iterate inp n' (S ii) st'
  end.

(** Lines 232-241: the first trade goes on the ledger. *)
Definition seed (inp : mexInputs) (sigIdx : nat) : state :=
  {| openLedger := [createLineEntry (Z.of_nat sigIdx) (int_cast (rd (sigIn inp) sigIdx))
                      (rd (dataIn inp) (sigIdx + 1))];
     openPosition := int_cast (rd (sigIn inp) sigIdx);
     cashIdx := zeros (rowsData inp);
     openEQIdx := zeros (rowsData inp) |}.

(** The whole [for] loop: [ii] from [sigIdx+1] while [ii < rowsSig-1]. *)
Definition bars (inp : mexInputs) (sigIdx : nat) : outcome state :=
  iterate inp (rowsSig inp - 1 - (sigIdx + 1)) (sigIdx + 1) (seed inp sigIdx).

(** ** The passes after the loop *)

(** Lines 400-406, one turn. *)
Definition clean_bar (cash : list Q) (openEQ : list Q) (ll : nat) : list Q :=
  if negb (Qeq_bool (rd openEQ ll) (rd cash (ll + 1)))
     && Qeq_bool (rd openEQ (ll + 1)) 0
     && Qgt_bool (rd cash (ll + 1)) 0
  then <[ll := rd cash (ll + 1)]> openEQ
  else openEQ.

Definition clean (rows : nat) (cash openEQ : list Q) : list Q :=
  fold_left (clean_bar cash) (seq 1 (rows - 2)) openEQ.

(** Lines 408-421, one turn: the running sum, [netLiq] and [returns]. *)
Definition sum_bar (cash openEQ : list Q) (acc : Q * list Q * list Q) (kk : nat)
  : Q * list Q * list Q :=
  let '(runSum, netLiq, returns) := acc in
  let runSum := runSum + rd cash kk in
  let netLiq := <[kk := runSum + rd openEQ kk]> netLiq in
  let returns :=
    if (0 <? kk)%nat then <[kk := rd netLiq kk - rd netLiq (kk - 1)]> returns
    else returns in
  (runSum, netLiq, returns).

Definition sums (rows : nat) (cash openEQ : list Q) : list Q * list Q :=
  let '(_, netLiq, returns) :=
    fold_left (sum_bar cash openEQ) (seq 0 rows) (0, zeros rows, <[0%nat := 0]> (zeros rows)) in
  (netLiq, returns).

(** ** The entry point *)

(** Lines 393-421: the outputs, from the state the loop ended in. *)
Definition finish (inp : mexInputs) (st : state) : mexOutputs :=
  let openEQ := clean (rowsData inp) (cashIdx st) (openEQIdx st) in
  let '(netLiq, returns) := sums (rowsData inp) (cashIdx st) openEQ in
  {| cash_OUT := cashIdx st; openEQ_OUT := openEQ;
     netLiq_OUT := netLiq; returns_OUT := returns |}.

(** Lines 427-433. *)
Definition all_zeros (inp : mexInputs) : mexOutputs :=
  {| cash_OUT := zeros (rowsData inp); openEQ_OUT := zeros (rowsData inp);
     netLiq_OUT := zeros (rowsData inp); returns_OUT := zeros (rowsData inp) |}.

Definition mexFunction (inp : mexInputs) : outcome mexOutputs :=
  if negb (rowsData inp =? rowsSig inp)%nat then Abort (ArrayMismatch 163)
  else if (1 <? colsSig inp)%nat then Abort (ArrayMismatch 167)
  else if negb (colsData inp =? 2)%nat && negb (colsData inp =? 4)%nat
       then Abort (ArrayMismatch 171)
  else
    let '(anyTrades, sigIdx) := scan (sigIn inp) 0 in
    if anyTrades && (sigIdx <? rowsSig inp)%nat then
      st ← bars inp sigIdx;
      Done (finish inp st)
    else
      Done (all_zeros inp).

(** ** Building inputs *)

(** A narrow (Open | Close) input from its two columns. *)
Definition narrow (open close sig : list Q) (bigPoint cost : Q) : mexInputs :=
  {| rowsData := length open; colsData := 2; dataIn := open ++ close;
     rowsSig := length sig; colsSig := 1; sigIn := sig;
     BIG_POINT := bigPoint; COST := cost |}.

(** A wide (four column) input from its columns. *)
Definition wide (c0 c1 c2 c3 sig : list Q) (bigPoint cost : Q) : mexInputs :=
  {| rowsData := length c0; colsData := 4; dataIn := c0 ++ c1 ++ c2 ++ c3;
     rowsSig := length sig; colsSig := 1; sigIn := sig;
     BIG_POINT := bigPoint; COST := cost |}.

(** * The vocabulary of the properties *)

Definition all_short (ledger : list tradeEntry) : Prop :=
  Forall (fun e => (quantity e < 0)%Z) ledger.

(** [at_bar inp sigIdx ii st]: the loop reaches counter [ii] in state [st]. *)
Inductive at_bar (inp : mexInputs) (sigIdx : nat) : nat -> state -> Prop :=
| at_seed : at_bar inp sigIdx (sigIdx + 1) (seed inp sigIdx)
| at_next ii st st' :
    at_bar inp sigIdx ii st -> (ii < rowsSig inp - 1)%nat ->
    bar inp ii st = Done st' ->
    at_bar inp sigIdx (S ii) st'.

(** [mutated inp sigIdx st]: [st] is the state right after the seed, between
    two bars, or right after one of the two places of a bar that change the
    ledger. *)
Inductive mutated (inp : mexInputs) (sigIdx : nat) : state -> Prop :=
| mut_seed : mutated inp sigIdx (seed inp sigIdx)
| mut_bar ii st : at_bar inp sigIdx ii st -> mutated inp sigIdx st
| mut_advanced ii st st1 :
    at_bar inp sigIdx ii st -> (ii < rowsSig inp - 1)%nat ->
    Qeq_bool (rd (sigIn inp) ii) 0 = false ->
    advanced inp ii (rd (sigIn inp) ii) st = Done st1 ->
    mutated inp sigIdx st1
| mut_integer ii st st1 st2 :
    at_bar inp sigIdx ii st -> (ii < rowsSig inp - 1)%nat ->
    Qeq_bool (rd (sigIn inp) ii) 0 = false ->
    advanced inp ii (rd (sigIn inp) ii) st = Done st1 ->
    integer inp ii (rd (sigIn inp) ii) st1 = Done st2 ->
    mutated inp sigIdx st2.

Definition conserved (st : state) : Prop :=
  sumQty (openLedger st) = openPosition st.

(** The ledger matches the position, and a position that is not long is held
    in short entries only (hence a flat position in none). *)
Definition ledger_ok (st : state) : Prop :=
  conserved st /\ ((openPosition st <= 0)%Z -> all_short (openLedger st)).

(** The claim's "nonzero fractional part whose magnitude is not exactly 0.5". *)
Definition invalid_signal (s : Q) : bool := fraction s && negb (knownAdvSig s).

(** The spec's [mark_to_market]: the sum over the lots of
    [(reference_price - entry_price) * quantity * big_point]. *)
Definition mark_to_market (reference_price big_point : Q) (lots : list tradeEntry) : Q :=
  fold_right (fun lot total =>
                (reference_price - price lot) * inject_Z (quantity lot) * big_point + total)
             0 lots.

(** The spec's formula for the cash of one consumption. *)
Definition realized_cash (exec_price : Q) (lot : tradeEntry) (signed_consumed : Z)
    (big_point cost : Q) : Q :=
  (exec_price - price lot) * inject_Z signed_consumed * big_point
  - inject_Z (Z.abs signed_consumed) * cost.

(** The sum the liquidation of [ledger] at [exec] adds to the cash, by the
    spec's formula: for every lot, price move times signed quantity times
    big point, less the commission on its magnitude. *)
Definition liquidation_value (exec BP C : Q) (ledger : list tradeEntry) : Q :=
  fold_right (fun lot total => realized_cash exec lot (quantity lot) BP C + total) 0 ledger.

(** Bar [ii] takes [st] to a position of exactly [qty], held as one new entry
    at the execution price, after every entry of [st] was liquidated into the
    cash of bar [ii+1]: that row grows by the liquidation value of the
    ledger. *)
Definition reverses_to (inp : mexInputs) (ii : nat) (st : state) (qty : Z) : Prop :=
  let exec := rd (dataIn inp) (ii + 1) in
  exists st', bar inp ii st = Done st' /\
    openPosition st' = qty /\
    openLedger st' = [createLineEntry (Z.of_nat ii) qty exec] /\
    cashIdx st' = <[(ii + 1)%nat := liquidate exec (BIG_POINT inp) (COST inp) (openLedger st)
                                      (rd (cashIdx st) (ii + 1))]> (cashIdx st) /\
    ((ii + 1 < length (cashIdx st))%nat ->
     rd (cashIdx st') (ii + 1) ==
     rd (cashIdx st) (ii + 1)
     + liquidation_value exec (BIG_POINT inp) (COST inp) (openLedger st)).

(** ** The range of [int] *)

Definition INT_MAX : Z := 2147483647.

(** An [int] whose negation and [abs] are ints as well. *)
Definition int_range (z : Z) : Prop := (- INT_MAX <= z <= INT_MAX)%Z.

Definition int_rangeb (z : Z) : bool := ((- INT_MAX <=? z) && (z <=? INT_MAX))%Z.

(** A double whose conversion to [int] is defined, with a result in
    [int_range]: its magnitude is below 2^31. *)
Definition signal_in_int (s : Q) : Prop := Qabs s < inject_Z (INT_MAX + 1).

Definition signal_in_intb (s : Q) : bool := negb (Qle_bool (inject_Z (INT_MAX + 1)) (Qabs s)).

(** The position and every quantity on the ledger are in [int_range]. *)
Definition state_in_int (st : state) : Prop :=
  int_range (openPosition st) /\ Forall (fun e => int_range (quantity e)) (openLedger st).

Definition state_in_intb (st : state) : bool :=
  int_rangeb (openPosition st) && forallb (fun e => int_rangeb (quantity e)) (openLedger st).

(** The run from the first trade at [sigIdx] stays within [int]: the signal
    of the first trade and the signals of the iterated bars convert to ints,
    and every state the loop passes through holds ints.  Outside of this the
    source's arithmetic is undefined and the embedding says nothing of it. *)
Definition run_within_int (inp : mexInputs) (sigIdx : nat) : Prop :=
  signal_in_int (rd (sigIn inp) sigIdx) /\
  (forall j, (sigIdx < j < rowsSig inp - 1)%nat -> signal_in_int (rd (sigIn inp) j)) /\
  (forall ii st, at_bar inp sigIdx ii st -> state_in_int st).

(** [run_within_int], decided by running the loop. *)
Fixpoint stays_in_int (inp : mexInputs) (n : nat) (ii : nat) (st : state) : bool :=
  state_in_intb st &&
  match n with
  | O => true
  | S n' =>
      match bar inp ii st with
      | Done st' => stays_in_int inp n' (S ii) st'
      | _ => true
      end
  end.

Definition run_within_intb (inp : mexInputs) (sigIdx : nat) : bool :=
  signal_in_intb (rd (sigIn inp) sigIdx)
  && forallb (fun j => signal_in_intb (rd (sigIn inp) j))
       (seq (sigIdx + 1) (rowsSig inp - 1 - (sigIdx + 1)))
  && stays_in_int inp (rowsSig inp - 1 - (sigIdx + 1)) (sigIdx + 1) (seed inp sigIdx).

(** Long 2 at 11, then long 3 at 12; a sale of 3 executed at 13. *)
Definition long_two_lots : mexInputs :=
  narrow [10; 11; 12; 13] [10; 11; 12; 13] [2; 3; -3; 0] 1 0.

(** Long 1 at 11, then long 4 at 12; a sale of 2 executed at 13. *)
Definition long_small_front : mexInputs :=
  narrow [10; 11; 12; 13] [10; 11; 12; 13] [1; 4; -2; 0] 1 0.

(** Short 2 at 11, then short 3 at 12; a buy of 3 executed at 13. *)
Definition short_two_lots : mexInputs :=
  narrow [10; 11; 12; 13] [10; 11; 12; 13] [-2; -3; 3; 0] 1 0.

(** Short 50, then the signal -1.5. *)
Definition short_then_reverse_short : mexInputs :=
  narrow [10; 11; 12] [10; 11; 12] [-50; - (3 # 2); 0] 1 0.

(** Short 50, then the signal 1.5; long 50, then the signal -1.5. *)
Definition short_then_reverse_long : mexInputs :=
  narrow [10; 11; 12] [10; 11; 12] [-50; 3 # 2; 0] 1 0.

Definition long_then_reverse_short : mexInputs :=
  narrow [10; 11; 12] [10; 11; 12] [50; - (3 # 2); 0] 1 0.

(** Long 2 at 11, held over a bar that opens at 12 and closes at 15. *)
Definition open_differs_from_close : mexInputs :=
  narrow [10; 11; 12] [10; 11; 15] [2; 0; 0] 1 0.

(** Long 2 at 11, marked at a close of 14, then sold at 13. *)
Definition profit_closed_next_bar : mexInputs :=
  narrow [10; 11; 12; 13] [10; 11; 14; 13] [2; 0; -2; 0] 1 0.

(** Long 2, then the signal 2.25 on an iterated bar. *)
Definition invalid_mid_run : mexInputs :=
  narrow [10; 11; 12; 13] [10; 11; 12; 13] [2; 9 # 4; 0; 0] 1 0.

(** A half on the second bar and a trade on the final bar only. *)
Definition only_final_bar_signal : mexInputs :=
  narrow [10; 11; 12] [10; 11; 12] [0; 1 # 2; 5] 1 0.

(** [short_two_lots] at the top of bar 2 and after its partial liquidation. *)
Definition short_two_lots_at_2 : state :=
  {| openLedger := [createLineEntry 0 (-2) 11; createLineEntry 1 (-3) 12];
     openPosition := -5;
     cashIdx := [0; 0; 0; 0];
     openEQIdx := [0; 0; -2; 0] |}.

Definition short_two_lots_covered : state :=
  {| openLedger := [createLineEntry 1 (-2) 12];
     openPosition := -2;
     cashIdx := [0; 0; 0; 3];
     openEQIdx := [0; 0; -2; 0] |}.

(** [open_differs_from_close] after bar 1. *)
Definition open_differs_from_close_after_1 : state :=
  {| openLedger := [createLineEntry 0 2 11];
     openPosition := 2;
     cashIdx := [0; 0; 0];
     openEQIdx := [0; 0; 8] |}.

(** [runSum] after the turn [kk = k] of the loop of lines 410-421. *)
Definition running_sum (cash : list Q) (k : nat) : Q :=
  fold_left (fun runSum kk => runSum + rd cash kk) (seq 0 (S k)) 0.

(** The test of line 402 at row [ll]. *)
Definition spike (cash openEQ : list Q) (ll : nat) : bool :=
  negb (Qeq_bool (rd openEQ ll) (rd cash (ll + 1)))
  && Qeq_bool (rd openEQ (ll + 1)) 0
  && Qgt_bool (rd cash (ll + 1)) 0.

(** The integer parts of the signals of the bars [a], ..., [a+n-1], summed. *)
Definition signal_total (inp : mexInputs) (a n : nat) : Z :=
  foldr (fun j total => (int_cast (rd (sigIn inp) j) + total)%Z) 0%Z (seq a n).

(** The state a close-out at bar [ii] leaves: nothing on the ledger, a flat
    position, and the liquidation of every lot in the cash of bar [ii+1]. *)
Definition closed_out (inp : mexInputs) (ii : nat) (st : state) : state :=
  {| openLedger := [];
     openPosition := 0;
     cashIdx := <[(ii + 1)%nat :=
                  liquidate (rd (dataIn inp) (ii + 1)) (BIG_POINT inp) (COST inp)
                    (openLedger st) (rd (cashIdx st) (ii + 1))]> (cashIdx st);
     openEQIdx := openEQIdx st |}.

(** The lots sit on the ledger in the order of the bars that opened them,
    all of them bars before [ii]. *)
Definition opened_in_order (ii : nat) (ledger : list tradeEntry) : Prop :=
  StronglySorted (fun e1 e2 => (index e1 < index e2)%Z) ledger /\
  Forall (fun e => (index e < Z.of_nat ii)%Z) ledger.

(** The same call with another signal column. *)
Definition with_signals (inp : mexInputs) (sig : list Q) : mexInputs :=
  {| rowsData := rowsData inp; colsData := colsData inp; dataIn := dataIn inp;
     rowsSig := rowsSig inp; colsSig := colsSig inp; sigIn := sig;
     BIG_POINT := BIG_POINT inp; COST := COST inp |}.

(** The state a flip to [qty] at bar [ii] leaves: every lot liquidated into
    the cash of bar [ii+1], one new lot of [qty] at the execution price, and
    its open equity written. *)
Definition flipped (inp : mexInputs) (ii : nat) (st : state) (qty : Z) : state :=
  mark_bar inp ii
    {| openLedger := [createLineEntry (Z.of_nat ii) qty (rd (dataIn inp) (ii + 1))];
       openPosition := qty;
       cashIdx := <[(ii + 1)%nat :=
                    liquidate (rd (dataIn inp) (ii + 1)) (BIG_POINT inp) (COST inp)
                      (openLedger st) (rd (cashIdx st) (ii + 1))]> (cashIdx st);
       openEQIdx := openEQIdx st |}.

(** What the call returns on [long_two_lots]. *)
Definition long_two_lots_out : mexOutputs :=
  {| cash_OUT := [0; 0; 0; 6]; openEQ_OUT := [0; 0; 2; 1];
     netLiq_OUT := [0; 0; 2; 7]; returns_OUT := [0; 0; 2; 5] |}.

(** [short_two_lots] after bar 2. *)
Definition short_two_lots_after_2 : state :=
  {| openLedger := [createLineEntry 1 (-2) 12];
     openPosition := -2;
     cashIdx := [0; 0; 0; 3];
     openEQIdx := [0; 0; -2; -2] |}.

(** Short 50, then a half; short 50, then a buy of 50; short 50, then a
    sale of 3. *)
Definition short_then_half : mexInputs :=
  narrow [10; 11; 12] [10; 11; 12] [-50; 1 # 2; 0] 1 0.

Definition short_then_offset : mexInputs :=
  narrow [10; 11; 12] [10; 11; 12] [-50; 50; 0] 1 0.

Definition short_then_plain_flip : mexInputs :=
  narrow [10; 11; 12] [10; 11; 12] [-50; 51; 0] 1 0.

Definition short_then_more : mexInputs :=
  narrow [10; 11; 12] [10; 11; 12] [-50; -3; 0] 1 0.

(** A flat state of a three-row run. *)
Definition flat_of_three : state :=
  {| openLedger := []; openPosition := 0; cashIdx := [0; 0; 0]; openEQIdx := [0; 0; 0] |}.

(** * Properties *)

(** ** Signals *)

Lemma int_cast_inject (z : Z) : int_cast (inject_Z z) = z.
Proof.
  unfold int_cast. destruct (Qle_bool 0 (inject_Z z)).
  - apply Qfloor_Z.
  - apply Qceiling_Z.
Qed.

Lemma int_cast_comp (x y : Q) : x == y -> int_cast x = int_cast y.
Proof.
  intros E. unfold int_cast.
  assert (Qle_bool 0 x = Qle_bool 0 y) as -> by (rewrite E; reflexivity).
  destruct (Qle_bool 0 y).
  - now apply Qfloor_comp.
  - now apply Qceiling_comp.
Qed.

Lemma whole_of_fraction (s : Q) : fraction s = false -> s == inject_Z (int_cast s).
Proof.
  unfold fraction. intros H. apply negb_false_iff in H.
  now apply Qeq_bool_iff in H.
Qed.

Lemma int_cast_add_whole (p : Z) (s : Q) :
  fraction s = false -> int_cast (inject_Z p + s) = (p + int_cast s)%Z.
Proof.
  intros H. apply whole_of_fraction in H.
  rewrite (int_cast_comp (inject_Z p + s) (inject_Z (p + int_cast s))).
  - apply int_cast_inject.
  - rewrite inject_Z_plus. rewrite <- H. reflexivity.
Qed.

Lemma int_cast_ge_1 (s : Q) : 1 <= s -> (1 <= int_cast s)%Z.
Proof.
  intros H. unfold int_cast.
  assert (Qle_bool 0 s = true) as -> by (apply Qle_bool_iff; lra).
  change 1%Z with (Qfloor 1). now apply Qfloor_resp_le.
Qed.

Lemma int_cast_le_m1 (s : Q) : s <= -1 -> (int_cast s <= -1)%Z.
Proof.
  intros H. unfold int_cast.
  destruct (Qle_bool 0 s) eqn:E.
  - apply Qle_bool_iff in E. lra.
  - change (-1)%Z with (Qceiling (-1)). now apply Qceiling_resp_le.
Qed.

Lemma int_cast_abs_nonneg (s : Q) : (0 <= int_cast (Qabs s))%Z.
Proof.
  unfold int_cast.
  assert (Qle_bool 0 (Qabs s) = true) as -> by (apply Qle_bool_iff, Qabs_nonneg).
  change 0%Z with (Qfloor 0). apply Qfloor_resp_le, Qabs_nonneg.
Qed.

(** A whole signal behaves as the integer it converts to. *)
Lemma whole_ge_1 (s : Q) (k : Z) : s == inject_Z k -> Qle_bool 1 s = true <-> (1 <= k)%Z.
Proof.
  intros E. rewrite Qle_bool_iff, E. change 1 with (inject_Z 1).
  now rewrite <- Zle_Qle.
Qed.

Lemma whole_le_m1 (s : Q) (k : Z) : s == inject_Z k -> Qle_bool s (-1) = true <-> (k <= -1)%Z.
Proof.
  intros E. rewrite Qle_bool_iff, E. change (-1) with (inject_Z (-1)).
  now rewrite <- Zle_Qle.
Qed.

Lemma whole_abs (s : Q) (k : Z) : s == inject_Z k -> int_cast (Qabs s) = Z.abs k.
Proof.
  intros E. rewrite (int_cast_comp (Qabs s) (inject_Z (Z.abs k))).
  - apply int_cast_inject.
  - rewrite E. unfold inject_Z. symmetry. apply Zabs_Qabs.
Qed.

Lemma whole_nonzero (s : Q) (k : Z) : s == inject_Z k -> Qeq_bool s 0 = false -> k <> 0%Z.
Proof.
  intros E H ->. rewrite <- not_true_iff_false, Qeq_bool_iff in H. now apply H.
Qed.

(** What the partial-liquidation branch knows about a whole signal: it
    opposes the position and is smaller in magnitude. *)
Lemma partial_whole (pos : Z) (s : Q) :
  fraction s = false -> Qeq_bool s 0 = false ->
  branch_of pos s = PartialLiquidation ->
  ((0 < pos)%Z /\ (- pos < int_cast s < 0)%Z) \/
  ((pos < 0)%Z /\ (0 < int_cast s < - pos)%Z).
Proof.
  intros Hf Hz Hb. apply whole_of_fraction in Hf.
  pose proof (whole_nonzero _ _ Hf Hz) as Hk.
  pose proof (whole_ge_1 _ _ Hf) as H1. pose proof (whole_le_m1 _ _ Hf) as H2.
  unfold branch_of, additive in Hb. rewrite (whole_abs _ _ Hf) in Hb.
  destruct (Qle_bool s (-1)), (Qle_bool 1 s), (Z.leb_spec pos 0), (Z.geb_spec pos 0);
    simpl in Hb; try discriminate;
    destruct (Z.geb_spec (Z.abs (int_cast s)) (Z.abs pos)); try discriminate;
    try (destruct H1 as [H1 _]; specialize (H1 eq_refl));
    try (destruct H2 as [H2 _]; specialize (H2 eq_refl)); try lia.
  all: assert (~ (1 <= int_cast s)%Z) by (intros X; apply H1 in X; discriminate).
  all: assert (~ (int_cast s <= -1)%Z) by (intros X; apply H2 in X; discriminate).
  all: lia.
Qed.

(** ** The ledger *)

Lemma sumQty_from (x : list tradeEntry) (a : Z) :
  fold_left (fun sumOfQty it => (sumOfQty + quantity it)%Z) x a = (a + sumQty x)%Z.
Proof.
  unfold sumQty. revert a. induction x as [|e x IH]; intros a; simpl.
  - lia.
  - rewrite IH, (IH (0 + quantity e)%Z). lia.
Qed.

Lemma sumQty_cons (e : tradeEntry) (x : list tradeEntry) :
  sumQty (e :: x) = (quantity e + sumQty x)%Z.
Proof. unfold sumQty at 1. simpl. apply sumQty_from. Qed.

Lemma sumQty_app (x y : list tradeEntry) : sumQty (x ++ y) = (sumQty x + sumQty y)%Z.
Proof.
  induction x as [|e x IH]; simpl.
  - reflexivity.
  - rewrite !sumQty_cons, IH. lia.
Qed.

(** The partial-liquidation loop moves the net quantity by [needQty],
    whatever the entries are. *)
Lemma reduce_sumQty exec BP C ledger needQty c ledger' c' :
  reduce exec BP C ledger needQty c = Some (ledger', c') ->
  sumQty ledger' = (sumQty ledger + needQty)%Z.
Proof.
  revert needQty c. induction ledger as [|e rest IH]; intros needQty c; simpl.
  - destruct (Z.eqb_spec needQty 0); [intros [= <- <-]; lia | discriminate].
  - destruct (Z.eqb_spec needQty 0).
    + intros [= <- <-]. lia.
    + destruct (Z.abs (quantity e) >? needQty)%Z.
      * intros [= <- <-]. rewrite !sumQty_cons. simpl. lia.
      * intros H. apply IH in H. rewrite H, sumQty_cons. lia.
Qed.

(** On a short ledger, a smaller buy never runs off the end of the deque and
    leaves a short ledger. *)
Lemma reduce_short exec BP C ledger needQty c :
  all_short ledger -> (0 <= needQty < - sumQty ledger)%Z ->
  exists ledger' c', reduce exec BP C ledger needQty c = Some (ledger', c')
                     /\ all_short ledger'.
Proof.
  revert needQty c. induction ledger as [|e rest IH]; intros needQty c Hs Hn.
  - unfold sumQty in Hn. simpl in Hn. lia.
  - rewrite sumQty_cons in Hn. inversion Hs as [|? ? He Hrest]; subst. simpl.
    destruct (Z.eqb_spec needQty 0); [eauto|].
    destruct (Z.gtb_spec (Z.abs (quantity e)) needQty).
    + eexists _, _. split; [reflexivity|]. constructor; [simpl; lia | exact Hrest].
    + apply IH; [exact Hrest | lia].
Qed.

(** On a ledger that is not empty, a sale is always booked on the front
    entry alone. *)
Lemma reduce_sale exec BP C e rest needQty c :
  (needQty < 0)%Z ->
  reduce exec BP C (e :: rest) needQty c =
  Some (createLineEntry (index e) (quantity e + needQty) (price e) :: rest,
        shrink_cash exec BP C e needQty c).
Proof.
  intros H. simpl. destruct (Z.eqb_spec needQty 0); [lia|].
  destruct (Z.gtb_spec (Z.abs (quantity e)) needQty); [reflexivity | lia].
Qed.

(** ** The states of a run *)

(** What [advanced] can have done when it returns. *)
Lemma advanced_done inp ii s st st1 :
  advanced inp ii s st = Done st1 ->
  (st1 = st /\ (fraction s = false \/ additive (openPosition st) s = true)) \/
  (fraction s = true /\ knownAdvSig s = true /\
   additive (openPosition st) s = false /\
   st1 = {| openLedger := []; openPosition := 0;
            cashIdx := <[(ii + 1)%nat :=
                         liquidate (rd (dataIn inp) (ii + 1)) (BIG_POINT inp) (COST inp)
                           (openLedger st) (rd (cashIdx st) (ii + 1))]> (cashIdx st);
            openEQIdx := openEQIdx st |}).
Proof.
  unfold advanced.
  destruct (fraction s); [|intros [= <-]; auto].
  destruct (knownAdvSig s) eqn:K; [|discriminate].
  destruct (additive (openPosition st) s); [intros [= <-]; auto|].
  unfold knownAdvSig in K. cbv zeta in K. rewrite K.
  intros [= <-]. right. auto.
Qed.

Lemma advanced_defined inp ii s st : advanced inp ii s st <> Undefined.
Proof.
  unfold advanced.
  destruct (fraction s), (knownAdvSig s), (additive (openPosition st) s);
    try discriminate.
  destruct (Qeq_bool _ _); discriminate.
Qed.

(** After [advanced], a fractional signal never meets the partial branch. *)
Lemma advanced_then_partial inp ii s st st1 :
  advanced inp ii s st = Done st1 ->
  branch_of (openPosition st1) s = PartialLiquidation ->
  fraction s = false /\ st1 = st.
Proof.
  intros H Hb. destruct (advanced_done _ _ _ _ _ H) as [[-> [Hf|Ha]]|(_ & _ & _ & ->)].
  - auto.
  - unfold branch_of in Hb. now rewrite Ha in Hb.
  - exfalso. unfold branch_of in Hb. cbn [openPosition Z.abs] in Hb.
    destruct (additive 0 s); [discriminate|].
    pose proof (int_cast_abs_nonneg s).
    change (Z.abs 0) with 0%Z in Hb.
    destruct (Z.geb_spec (int_cast (Qabs s)) 0); [discriminate | lia].
Qed.

Lemma advanced_conserved inp ii s st st1 :
  conserved st -> advanced inp ii s st = Done st1 -> conserved st1.
Proof.
  intros Hc H. destruct (advanced_done _ _ _ _ _ H) as [[-> _]|(_ & _ & _ & ->)].
  - exact Hc.
  - reflexivity.
Qed.

Lemma integer_conserved inp ii s st1 st2 :
  conserved st1 ->
  (branch_of (openPosition st1) s = PartialLiquidation -> fraction s = false) ->
  integer inp ii s st1 = Done st2 -> conserved st2.
Proof.
  unfold conserved, integer. intros Hc Hw.
  destruct (branch_of (openPosition st1) s).
  - intros [= <-]. simpl. rewrite sumQty_app, Hc. unfold sumQty. simpl. lia.
  - intros [= <-]. simpl.
    destruct (Z.eqb_spec (int_cast s + openPosition st1) 0) as [->|_].
    + reflexivity.
    + unfold sumQty. simpl. lia.
  - destruct (reduce _ _ _ _ _ _) as [[ledger' c]|] eqn:R; [|discriminate].
    intros [= <-]. simpl. rewrite (reduce_sumQty _ _ _ _ _ _ _ _ R), Hc.
    symmetry. apply int_cast_add_whole. now apply Hw.
Qed.

Lemma mark_bar_ledger inp ii st :
  openLedger (mark_bar inp ii st) = openLedger st /\
  openPosition (mark_bar inp ii st) = openPosition st /\
  cashIdx (mark_bar inp ii st) = cashIdx st.
Proof. unfold mark_bar. destruct (openPosition st =? 0)%Z; auto. Qed.

Lemma act_conserved inp ii st st' :
  conserved st -> act inp ii st = Done st' -> conserved st'.
Proof.
  unfold act. intros Hc. destruct (Qeq_bool _ 0); simpl; [intros [= <-]; exact Hc|].
  destruct (advanced inp ii _ st) as [st1| |] eqn:A; simpl; try discriminate.
  intros H. eapply integer_conserved; [| |exact H].
  - eapply advanced_conserved; eauto.
  - intros Hb. eapply advanced_then_partial; eauto.
Qed.

Lemma bar_conserved inp ii st st' :
  conserved st -> bar inp ii st = Done st' -> conserved st'.
Proof.
  unfold bar. intros Hc. destruct (act inp ii st) as [st1| |] eqn:A; simpl; try discriminate.
  intros [= <-]. unfold conserved.
  destruct (mark_bar_ledger inp ii st1) as (-> & -> & _).
  eapply act_conserved; eauto.
Qed.

Lemma seed_conserved inp sigIdx : conserved (seed inp sigIdx).
Proof. unfold conserved, sumQty. simpl. lia. Qed.

Lemma at_bar_conserved inp sigIdx ii st : at_bar inp sigIdx ii st -> conserved st.
Proof.
  induction 1 as [|ii st st' _ IH _ Hb].
  - apply seed_conserved.
  - eapply bar_conserved; eauto.
Qed.

(** C6. After the seed, between the bars and after every mutation of the
    ledger in a bar (the close-out of an advanced signal; the additive push,
    the full liquidation with or without a remainder, the partial
    liquidation), the signed sum of the quantities on the ledger is the
    tracked [openPosition]. *)
Theorem ledger_conservation inp sigIdx st :
  mutated inp sigIdx st -> sumQty (openLedger st) = openPosition st.
Proof.
  intros [|ii st0 Hat|ii st0 st1 Hat _ _ Ha|ii st0 st1 st2 Hat _ _ Ha Hi].
  - apply seed_conserved.
  - eapply at_bar_conserved; eauto.
  - eapply advanced_conserved; [|exact Ha]. eapply at_bar_conserved; eauto.
  - eapply integer_conserved; [| |exact Hi].
    + eapply advanced_conserved; [|exact Ha]. eapply at_bar_conserved; eauto.
    + intros Hb. eapply advanced_then_partial; eauto.
Qed.

(** The loop function only visits [at_bar] states. *)
Lemma iterate_at_bar inp sigIdx n : forall ii st st',
  at_bar inp sigIdx ii st -> (n <= rowsSig inp - 1 - ii)%nat ->
  iterate inp n ii st = Done st' -> at_bar inp sigIdx (ii + n) st'.
Proof.
  induction n as [|n IH]; intros ii st st' Hat Hn; simpl.
  - intros [= <-]. now replace (ii + 0)%nat with ii by lia.
  - destruct (bar inp ii st) as [st1| |] eqn:B; simpl; try discriminate.
    intros H. replace (ii + S n)%nat with (S ii + n)%nat by lia.
    apply (IH (S ii) st1); [|lia|exact H].
    eapply at_next; eauto. lia.
Qed.

Lemma bars_at_bar inp sigIdx st :
  (sigIdx < rowsSig inp)%nat -> bars inp sigIdx = Done st ->
  at_bar inp sigIdx (Nat.max (sigIdx + 1) (rowsSig inp - 1)) st.
Proof.
  unfold bars. intros Hlt H.
  replace (Nat.max (sigIdx + 1) (rowsSig inp - 1))
    with (sigIdx + 1 + (rowsSig inp - 1 - (sigIdx + 1)))%nat
    by (destruct (Nat.max_spec (sigIdx + 1) (rowsSig inp - 1)) as [[? ->]|[? ->]]; lia).
  eapply iterate_at_bar; [apply at_seed | lia | exact H].
Qed.

(** ** Halves *)

Lemma Qfloor_half (s : Q) (X : Z) : s == inject_Z X + (1 # 2) -> Qfloor s = X.
Proof.
  intros E. pose proof (Qfloor_le s) as H1. pose proof (Qlt_floor s) as H2.
  rewrite inject_Z_plus in H2. change (inject_Z 1) with 1 in H2.
  assert (inject_Z (Qfloor s) < inject_Z (X + 1)) as A
    by (rewrite inject_Z_plus; change (inject_Z 1) with 1; lra).
  assert (inject_Z X < inject_Z (Qfloor s + 1)) as B
    by (rewrite inject_Z_plus; change (inject_Z 1) with 1; lra).
  rewrite <- Zlt_Qlt in A, B. lia.
Qed.

Lemma int_cast_half_pos (s : Q) (X : Z) :
  (0 <= X)%Z -> s == inject_Z X + (1 # 2) -> int_cast s = X.
Proof.
  intros HX E. unfold int_cast.
  assert (0 <= inject_Z X) by (change 0 with (inject_Z 0); now rewrite <- Zle_Qle).
  assert (Qle_bool 0 s = true) as -> by (apply Qle_bool_iff; lra).
  now apply Qfloor_half.
Qed.

Lemma int_cast_half_neg (s : Q) (X : Z) :
  (0 <= X)%Z -> s == - (inject_Z X + (1 # 2)) -> int_cast s = (- X)%Z.
Proof.
  intros HX E. unfold int_cast.
  assert (0 <= inject_Z X) by (change 0 with (inject_Z 0); now rewrite <- Zle_Qle).
  destruct (Qle_bool 0 s) eqn:L; [apply Qle_bool_iff in L; lra|].
  unfold Qceiling. f_equal. apply Qfloor_half. lra.
Qed.

Lemma int_cast_small (s : Q) : ~ 1 <= s -> ~ s <= -1 -> int_cast s = 0%Z.
Proof.
  intros H1 H2. unfold int_cast. destruct (Qle_bool 0 s) eqn:L.
  - apply Qle_bool_iff in L.
    pose proof (Qfloor_le s) as A. pose proof (Qfloor_resp_le _ _ L) as B.
    assert (inject_Z (Qfloor s) < inject_Z 1) as A' by (change (inject_Z 1) with 1; lra).
    rewrite <- Zlt_Qlt in A'. change (Qfloor 0) with 0%Z in B. lia.
  - assert (s <= 0) as L'
      by (apply Qlt_le_weak, Qnot_le_lt; intros X; apply Qle_bool_iff in X; congruence).
    pose proof (Qle_ceiling s) as A. pose proof (Qceiling_resp_le _ _ L') as B.
    assert (inject_Z (-1) < inject_Z (Qceiling s)) as A'
      by (change (inject_Z (-1)) with (-1); lra).
    rewrite <- Zlt_Qlt in A'. change (Qceiling 0) with 0%Z in B. lia.
Qed.

Lemma half_is_fraction (s : Q) (k : Z) :
  s == inject_Z k + (1 # 2) \/ s == inject_Z k - (1 # 2) ->
  int_cast s = k -> fraction s = true /\ knownAdvSig s = true.
Proof.
  intros E Hk. unfold fraction, knownAdvSig. rewrite Hk. split.
  - apply negb_true_iff, not_true_iff_false. rewrite Qeq_bool_iff. lra.
  - apply Qeq_bool_iff. destruct E as [E|E].
    + assert (s - inject_Z k == 1 # 2) as -> by lra. reflexivity.
    + assert (s - inject_Z k == - (1 # 2)) as -> by lra. reflexivity.
Qed.

(** ** The partial branch and fractional signals *)

(** C10. A fractional signal aborts, or is classified additive with its
    marker ignored, or first zeroes the position and empties the ledger, after
    which it is additive (a reverse) or, for a bare half, a full liquidation
    of nothing.  So the partial-liquidation branch is only reached with a
    whole signal, and there the conversions to [int] in [needQty] and in the
    update of [openPosition] drop nothing. *)
Theorem partial_branch_whole_signal inp ii st :
  let s := rd (sigIn inp) ii in
  (fraction s = true ->
     (exists e, advanced inp ii s st = Abort e) \/
     (advanced inp ii s st = Done st /\ branch_of (openPosition st) s = Additive) \/
     (exists st1, advanced inp ii s st = Done st1 /\
        openPosition st1 = 0%Z /\ openLedger st1 = [] /\
        (branch_of 0 s = Additive \/
         (branch_of 0 s = FullLiquidation /\ int_cast s = 0%Z)))) /\
  (forall st1, advanced inp ii s st = Done st1 ->
     branch_of (openPosition st1) s = PartialLiquidation ->
     fraction s = false /\
     inject_Z (int_cast s) == s /\
     inject_Z (int_cast (inject_Z (openPosition st1) + s)) == inject_Z (openPosition st1) + s).
Proof.
  intros s. split.
  - intros Hf. destruct (advanced inp ii s st) as [st1|e|] eqn:A.
    + right. destruct (advanced_done _ _ _ _ _ A) as [[-> [Hf'|Ha]]|(_ & _ & Ha & ->)].
      * congruence.
      * left. split; [reflexivity|]. unfold branch_of. now rewrite Ha.
      * right. eexists. split; [reflexivity|]. repeat split.
        unfold branch_of. destruct (additive 0 s) eqn:A0; [now left|right].
        change (Z.abs 0) with 0%Z. pose proof (int_cast_abs_nonneg s).
        destruct (Z.geb_spec (int_cast (Qabs s)) 0); [|lia].
        split; [reflexivity|]. unfold additive in A0. simpl in A0.
        apply orb_false_iff in A0. destruct A0 as [A1 A2].
        apply int_cast_small; intros X; apply Qle_bool_iff in X; congruence.
    + left. eauto.
    + now apply advanced_defined in A.
  - intros st1 A Hb. destruct (advanced_then_partial _ _ _ _ _ A Hb) as [Hf ->].
    split; [exact Hf|]. pose proof (whole_of_fraction s Hf) as W. split.
    + now symmetry.
    + rewrite (int_cast_add_whole _ _ Hf), inject_Z_plus, <- W. reflexivity.
Qed.

(** ** Runs never leave the deque *)

Lemma fraction_nonzero (s : Q) : fraction s = true -> Qeq_bool s 0 = false.
Proof.
  intros Hf. apply not_true_iff_false. intros Z0. apply Qeq_bool_iff in Z0.
  unfold fraction in Hf. apply negb_true_iff, not_true_iff_false in Hf. apply Hf.
  apply Qeq_bool_iff. rewrite (int_cast_comp s 0 Z0). exact Z0.
Qed.

Lemma integer_ok inp ii s st1 :
  ledger_ok st1 -> Qeq_bool s 0 = false ->
  (branch_of (openPosition st1) s = PartialLiquidation -> fraction s = false) ->
  exists st2, integer inp ii s st1 = Done st2 /\ ledger_ok st2.
Proof.
  intros [Hc Hs] Hz Hw.
  assert (forall st2, integer inp ii s st1 = Done st2 -> conserved st2) as Hc2
    by (intros st2; now apply integer_conserved).
  unfold integer in *. destruct (branch_of (openPosition st1) s) eqn:B.
  - eexists. split; [reflexivity|]. split; [now apply Hc2|]. simpl. intros Hle.
    unfold branch_of in B. destruct (additive (openPosition st1) s) eqn:A; [|
      destruct (int_cast (Qabs s) >=? Z.abs (openPosition st1))%Z; discriminate].
    unfold additive in A. apply orb_true_iff in A.
    destruct A as [A|A]; apply andb_true_iff in A; destruct A as [A1 A2];
      apply Qle_bool_iff in A2.
    + apply Z.leb_le in A1. apply Forall_app. split; [now apply Hs|].
      constructor; [|constructor]. simpl. pose proof (int_cast_le_m1 s A2). lia.
    + apply Z.geb_le in A1. pose proof (int_cast_ge_1 s A2). lia.
  - eexists. split; [reflexivity|]. split; [now apply Hc2|]. simpl. intros Hle.
    destruct (Z.eqb_spec (int_cast s + openPosition st1) 0); constructor.
    + simpl. lia.
    + constructor.
  - specialize (Hw eq_refl).
    pose proof (int_cast_add_whole (openPosition st1) s Hw) as Hp.
    destruct (partial_whole _ _ Hw Hz B) as [[Hpos Hk]|[Hpos Hk]].
    + destruct (openLedger st1) as [|e rest] eqn:L.
      { unfold conserved in Hc. rewrite L in Hc. unfold sumQty in Hc. simpl in Hc. lia. }
      rewrite reduce_sale by lia.
      eexists. split; [reflexivity|]. split.
      * apply Hc2. rewrite reduce_sale by lia. reflexivity.
      * simpl. rewrite Hp. lia.
    + destruct (reduce_short (rd (dataIn inp) (ii + 1)) (BIG_POINT inp) (COST inp)
                  (openLedger st1) (int_cast s) (rd (cashIdx st1) (ii + 1)))
        as (ledger' & c' & R & Hshort).
      { apply Hs. lia. }
      { unfold conserved in Hc. rewrite Hc. lia. }
      rewrite R. eexists. split; [reflexivity|]. split.
      * apply Hc2. rewrite R. reflexivity.
      * simpl. intros _. exact Hshort.
Qed.

Lemma act_invalid inp ii st :
  invalid_signal (rd (sigIn inp) ii) = true ->
  act inp ii st = Abort (fractionUnknown 295 (rd (sigIn inp) ii)).
Proof.
  unfold invalid_signal. intros H. apply andb_true_iff in H. destruct H as [Hf Hk].
  apply negb_true_iff in Hk. unfold act. rewrite (fraction_nonzero _ Hf). simpl.
  unfold advanced. now rewrite Hf, Hk.
Qed.

Lemma act_valid inp ii st :
  ledger_ok st -> invalid_signal (rd (sigIn inp) ii) = false ->
  exists st', act inp ii st = Done st' /\ ledger_ok st'.
Proof.
  intros Hok Hv. unfold act. destruct (Qeq_bool (rd (sigIn inp) ii) 0) eqn:Hz; simpl.
  { eauto. }
  destruct (advanced inp ii (rd (sigIn inp) ii) st) as [st1|e|] eqn:A.
  - simpl. apply integer_ok; [|exact Hz|].
    + destruct (advanced_done _ _ _ _ _ A) as [[-> _]|(_ & _ & _ & ->)]; [exact Hok|].
      split; [reflexivity|]. intros _. constructor.
    + intros Hb. eapply advanced_then_partial; eauto.
  - exfalso. unfold advanced, invalid_signal in *.
    destruct (fraction _); [|discriminate].
    destruct (knownAdvSig _) eqn:K; [|discriminate].
    destruct (additive _ _); [discriminate|].
    unfold knownAdvSig in K. cbv zeta in K. rewrite K in A. discriminate.
  - now apply advanced_defined in A.
Qed.

Lemma bar_invalid inp ii st :
  invalid_signal (rd (sigIn inp) ii) = true ->
  bar inp ii st = Abort (fractionUnknown 295 (rd (sigIn inp) ii)).
Proof. intros H. unfold bar. now rewrite (act_invalid _ _ _ H). Qed.

Lemma bar_valid inp ii st :
  ledger_ok st -> invalid_signal (rd (sigIn inp) ii) = false ->
  exists st', bar inp ii st = Done st' /\ ledger_ok st'.
Proof.
  intros Hok Hv. destruct (act_valid inp ii st Hok Hv) as (st1 & A & Hok1).
  unfold bar. rewrite A. simpl. eexists. split; [reflexivity|].
  unfold ledger_ok, conserved. destruct (mark_bar_ledger inp ii st1) as (-> & -> & _).
  exact Hok1.
Qed.

(** The loop ends normally when no iterated signal is invalid, and aborts at
    the first invalid one. *)
Lemma iterate_valid inp n : forall ii st,
  ledger_ok st ->
  (forall j, (ii <= j < ii + n)%nat -> invalid_signal (rd (sigIn inp) j) = false) ->
  exists st', iterate inp n ii st = Done st' /\ ledger_ok st'.
Proof.
  induction n as [|n IH]; intros ii st Hok Hv; simpl.
  - eauto.
  - destruct (bar_valid inp ii st Hok) as (st1 & B & Hok1); [apply Hv; lia|].
    rewrite B. simpl. apply IH; [exact Hok1|]. intros j Hj. apply Hv. lia.
Qed.

Lemma iterate_invalid inp n : forall ii st k,
  ledger_ok st -> (ii <= k < ii + n)%nat ->
  invalid_signal (rd (sigIn inp) k) = true ->
  (forall j, (ii <= j < k)%nat -> invalid_signal (rd (sigIn inp) j) = false) ->
  iterate inp n ii st = Abort (fractionUnknown 295 (rd (sigIn inp) k)).
Proof.
  induction n as [|n IH]; intros ii st k Hok Hk Hbad Hv; simpl; [lia|].
  destruct (Nat.eq_dec ii k) as [->|Hne].
  - now rewrite (bar_invalid _ _ _ Hbad).
  - destruct (bar_valid inp ii st Hok) as (st1 & B & Hok1); [apply Hv; lia|].
    rewrite B. simpl. apply IH; [exact Hok1|lia|exact Hbad|].
    intros j Hj. apply Hv. lia.
Qed.

(** ** The scan *)

Lemma scan_found sig : forall k0 k,
  scan sig k0 = (true, k) ->
  (k0 <= k < k0 + length sig)%nat /\ 1 <= Qabs (rd sig (k - k0)) /\
  (forall j, (j < k - k0)%nat -> Qle_bool 1 (Qabs (rd sig j)) = false).
Proof.
  induction sig as [|s rest IH]; intros k0 k; simpl; [discriminate|].
  destruct (Qle_bool 1 (Qabs s)) eqn:L.
  - intros [= <-]. replace (k0 - k0)%nat with 0%nat by lia. repeat split; try lia.
    now apply Qle_bool_iff in L.
  - intros H. apply IH in H. destruct H as (Hk & H1 & Hj).
    replace (k - k0)%nat with (S (k - S k0)) by lia. repeat split; try lia.
    + exact H1.
    + intros [|j] Hlt; [exact L|]. apply Hj. lia.
Qed.

Lemma scan_none sig : forall k0 k,
  scan sig k0 = (false, k) -> Forall (fun s => Qle_bool 1 (Qabs s) = false) sig.
Proof.
  induction sig as [|s rest IH]; intros k0 k; simpl; [constructor|].
  destruct (Qle_bool 1 (Qabs s)) eqn:L; [discriminate|].
  intros H. constructor; [exact L | eapply IH; eauto].
Qed.

Lemma seed_ok inp sigIdx :
  1 <= Qabs (rd (sigIn inp) sigIdx) -> ledger_ok (seed inp sigIdx).
Proof.
  intros H. split; [apply seed_conserved|]. simpl. intros Hle.
  constructor; [|constructor]. simpl.
  revert H. apply Qabs_case; intros Hs H.
  - pose proof (int_cast_ge_1 _ H). lia.
  - assert (rd (sigIn inp) sigIdx <= -1) as H' by lra.
    pose proof (int_cast_le_m1 _ H'). lia.
Qed.

(** ** Realized cash *)

(** Both "liquidate everything" loops book every lot by the formula, with the
    sign of the lot. *)
Lemma liquidate_realized exec BP C ledger : forall c,
  liquidate exec BP C ledger c == c + liquidation_value exec BP C ledger.
Proof.
  unfold liquidation_value. induction ledger as [|e rest IH]; intros c; simpl.
  - ring.
  - rewrite IH. unfold liquidate_front, realized_cash. ring.
Qed.

(** The shrink of the partial loop books [-needQty]: the sign of the lot. *)
Lemma shrink_cash_realized exec BP C e needQty c :
  shrink_cash exec BP C e needQty c == c + realized_cash exec e (- needQty) BP C.
Proof. unfold shrink_cash, realized_cash. rewrite Z.abs_opp. ring. Qed.

(** The removal of the partial loop books [-quantity]: the sign opposite to
    the lot's. *)
Lemma remove_cash_realized exec BP C e c :
  remove_cash exec BP C e c == c + realized_cash exec e (- quantity e) BP C.
Proof. unfold remove_cash, realized_cash. rewrite Z.abs_opp. ring. Qed.

(** ** A half on the side of the position *)

(** An advanced signal that passes the additive test is applied as the plain
    trade of its integer part, whatever the position: no error is raised. *)
Lemma additive_half_applied inp ii st :
  let s := rd (sigIn inp) ii in
  fraction s = true -> knownAdvSig s = true -> additive (openPosition st) s = true ->
  act inp ii st =
    Done {| openLedger := openLedger st ++
                          [createLineEntry (Z.of_nat ii) (int_cast s) (rd (dataIn inp) (ii + 1))];
            openPosition := openPosition st + int_cast s;
            cashIdx := cashIdx st;
            openEQIdx := openEQIdx st |}.
Proof.
  intros s Hf Hk Ha. unfold act. fold s. rewrite (fraction_nonzero s Hf). simpl.
  unfold advanced. rewrite Hf, Hk, Ha. simpl.
  unfold integer, branch_of. now rewrite Ha.
Qed.

(** ** What holds of the ledger on every run *)

Lemma bar_ok inp ii st st' :
  ledger_ok st -> bar inp ii st = Done st' -> ledger_ok st'.
Proof.
  intros Hok B. destruct (invalid_signal (rd (sigIn inp) ii)) eqn:V.
  - rewrite (bar_invalid _ _ _ V) in B. discriminate.
  - destruct (bar_valid inp ii st Hok V) as (st1 & B1 & Hok1). congruence.
Qed.

(** While the position is short or flat the entries on the ledger are all
    short, and the ledger always sums to the position. *)
Lemma at_bar_ok inp sigIdx ii st :
  1 <= Qabs (rd (sigIn inp) sigIdx) -> at_bar inp sigIdx ii st -> ledger_ok st.
Proof.
  intros H1. induction 1 as [|ii st st' _ IH _ Hb].
  - now apply seed_ok.
  - eapply bar_ok; eauto.
Qed.

(** A reduction smaller than the front lot is booked on the front lot alone,
    at its entry price, and leaves the later lots as they are; this holds for
    a long and for a short lot. *)
Lemma reduce_within_front exec BP C e rest needQty c :
  needQty <> 0%Z -> (Z.abs needQty < Z.abs (quantity e))%Z ->
  reduce exec BP C (e :: rest) needQty c =
  Some (createLineEntry (index e) (quantity e + needQty) (price e) :: rest,
        shrink_cash exec BP C e needQty c).
Proof.
  intros Hn Hlt. simpl. destruct (Z.eqb_spec needQty 0); [contradiction|].
  destruct (Z.gtb_spec (Z.abs (quantity e)) needQty); [reflexivity | lia].
Qed.

(** ** Whole calls *)

Lemma mexFunction_shape inp :
  valid_shape inp ->
  mexFunction inp =
    let '(anyTrades, sigIdx) := scan (sigIn inp) 0 in
    if anyTrades && (sigIdx <? rowsSig inp)%nat then
      st ← bars inp sigIdx; Done (finish inp st)
    else Done (all_zeros inp).
Proof.
  intros (Hr & Hc & Hd & _). unfold mexFunction.
  rewrite Hr, Nat.eqb_refl, Hc. simpl.
  destruct Hd as [-> | ->]; reflexivity.
Qed.

Lemma mexFunction_trades inp sigIdx :
  valid_shape inp -> scan (sigIn inp) 0 = (true, sigIdx) ->
  mexFunction inp = st ← bars inp sigIdx; Done (finish inp st).
Proof.
  intros Hv Hs. rewrite (mexFunction_shape inp Hv), Hs.
  destruct (scan_found _ _ _ Hs) as (Hk & _).
  destruct Hv as (_ & _ & _ & Hl & _). rewrite Hl in Hk.
  destruct (Nat.ltb_spec sigIdx (rowsSig inp)); [reflexivity | lia].
Qed.

Lemma first_true (P : nat -> bool) n : forall a,
  (exists k, (a <= k < a + n)%nat /\ P k = true) ->
  exists k, (a <= k < a + n)%nat /\ P k = true /\
            forall j, (a <= j < k)%nat -> P j = false.
Proof.
  induction n as [|n IH]; intros a (k & Hk & HP); [lia|].
  destruct (P a) eqn:Pa.
  - exists a. repeat split; try lia. exact Pa.
  - destruct (IH (S a)) as (k' & Hk' & HP' & Hj).
    + exists k. split; [|exact HP]. destruct (Nat.eq_dec k a) as [->|]; [congruence|lia].
    + exists k'. repeat split; try lia; [exact HP'|].
      intros j Hj'. destruct (Nat.eq_dec j a) as [->|]; [exact Pa|apply Hj; lia].
Qed.

(** C4, as the code has it.  The signals the bar loop iterates over (after
    the bar of the first trade, before the final bar) are checked: if one of
    them has a fractional part other than a half, the call aborts with the
    [fractionUnknown] error of line 295, which carries the value of the first
    such signal, and there is no output.  This is for runs within the range
    of int: the signals convert to ints and every position and lot quantity
    the run passes through is an int. *)
Theorem invalid_signal_aborts inp sigIdx :
  valid_shape inp ->
  scan (sigIn inp) 0 = (true, sigIdx) ->
  run_within_int inp sigIdx ->
  (exists k, (sigIdx < k < rowsSig inp - 1)%nat /\
             invalid_signal (rd (sigIn inp) k) = true) ->
  exists k, (sigIdx < k < rowsSig inp - 1)%nat /\
            invalid_signal (rd (sigIn inp) k) = true /\
            (forall j, (sigIdx < j < k)%nat -> invalid_signal (rd (sigIn inp) j) = false) /\
            mexFunction inp = Abort (fractionUnknown 295 (rd (sigIn inp) k)).
Proof.
  intros Hv Hs _ (k0 & Hk0 & Hbad0).
  destruct (first_true (fun j => invalid_signal (rd (sigIn inp) j))
              (rowsSig inp - 1 - (sigIdx + 1)) (sigIdx + 1)) as (k & Hk & Hbad & Hfirst).
  { exists k0. split; [lia | exact Hbad0]. }
  exists k. split; [lia|]. split; [exact Hbad|]. split.
  { intros j Hj. apply Hfirst. lia. }
  rewrite (mexFunction_trades inp sigIdx Hv Hs). unfold bars.
  rewrite (iterate_invalid inp _ _ _ k); try assumption; [reflexivity|].
  apply seed_ok. destruct (scan_found _ _ _ Hs) as (_ & H1 & _).
  now rewrite Nat.sub_0_r in H1.
Qed.

(** ** Runs without a trade *)

Lemma rd_zeros n i : rd (zeros n) i = 0.
Proof.
  unfold rd, zeros. destruct (replicate n 0 !! i) as [x|] eqn:L; [|reflexivity].
  apply lookup_replicate in L. simpl. tauto.
Qed.

Lemma insert_zeros n i : <[i := 0]> (zeros n) = zeros n.
Proof. apply insert_replicate. Qed.

Lemma clean_zeros rows : clean rows (zeros rows) (zeros rows) = zeros rows.
Proof.
  unfold clean. induction (seq 1 (rows - 2)) as [|ll l IH]; simpl; [reflexivity|].
  unfold clean_bar at 2. rewrite !rd_zeros. simpl. exact IH.
Qed.

Lemma sums_zeros rows : sums rows (zeros rows) (zeros rows) = (zeros rows, zeros rows).
Proof.
  unfold sums. rewrite insert_zeros.
  assert (forall l, fold_left (sum_bar (zeros rows) (zeros rows)) l (0, zeros rows, zeros rows)
                    = (0, zeros rows, zeros rows)) as ->; [|reflexivity].
  induction l as [|kk l IH]; simpl; [reflexivity|].
  rewrite !rd_zeros. change (0 + 0) with 0. rewrite insert_zeros, !rd_zeros.
  change (0 - 0) with 0. rewrite insert_zeros.
  destruct (0 <? kk)%nat; exact IH.
Qed.

Lemma finish_seed inp sigIdx : finish inp (seed inp sigIdx) = all_zeros inp.
Proof.
  unfold finish, seed, all_zeros. simpl. now rewrite clean_zeros, sums_zeros.
Qed.

(** C8. When no signal has magnitude 1 or more, or the only such signal sits
    on the final bar, the call ends without an error and each of the four
    series is the all-zero column with as many rows as the price input. *)
Theorem no_trade_zeros inp :
  valid_shape inp ->
  (forall i s, sigIn inp !! i = Some s -> 1 <= Qabs s -> i = (rowsSig inp - 1)%nat) ->
  mexFunction inp =
    Done {| cash_OUT := replicate (rowsData inp) 0;
            openEQ_OUT := replicate (rowsData inp) 0;
            netLiq_OUT := replicate (rowsData inp) 0;
            returns_OUT := replicate (rowsData inp) 0 |}.
Proof.
  intros Hv Hlast. change (mexFunction inp = Done (all_zeros inp)).
  rewrite (mexFunction_shape inp Hv).
  destruct (scan (sigIn inp) 0) as [[|] sigIdx] eqn:Hs; [|reflexivity].
  destruct (scan_found _ _ _ Hs) as (Hk & H1 & _). rewrite Nat.sub_0_r in H1.
  destruct Hv as (_ & _ & _ & Hl & _). rewrite Hl in Hk.
  destruct (Nat.ltb_spec sigIdx (rowsSig inp)); [|lia]. simpl.
  assert (sigIdx = (rowsSig inp - 1)%nat) as E.
  { destruct (lookup_lt_is_Some_2 (sigIn inp) sigIdx) as [s Hsome]; [lia|].
    apply (Hlast sigIdx s Hsome). unfold rd in H1. now rewrite Hsome in H1. }
  unfold bars. replace (rowsSig inp - 1 - (sigIdx + 1))%nat with 0%nat by lia.
  simpl. now rewrite finish_seed.
Qed.

(** ** Open equity *)

Lemma mark_sum ref BP ledger : forall acc,
  mark ref BP ledger acc == acc + mark_to_market ref BP ledger.
Proof.
  unfold mark. induction ledger as [|e rest IH]; intros acc; simpl.
  - ring.
  - rewrite IH. ring.
Qed.

Lemma rd_insert_eq (a : list Q) i x : (i < length a)%nat -> rd (<[i := x]> a) i = x.
Proof. intros H. unfold rd. now rewrite list_lookup_insert_eq. Qed.

Lemma rd_insert_ne (a : list Q) i j x : i <> j -> rd (<[i := x]> a) j = rd a j.
Proof. intros H. unfold rd. now rewrite list_lookup_insert_ne. Qed.

Lemma advanced_openEQ inp ii s st st1 :
  advanced inp ii s st = Done st1 -> openEQIdx st1 = openEQIdx st.
Proof.
  intros H. destruct (advanced_done _ _ _ _ _ H) as [[-> _]|(_ & _ & _ & ->)]; reflexivity.
Qed.

Lemma integer_openEQ inp ii s st st1 :
  integer inp ii s st = Done st1 -> openEQIdx st1 = openEQIdx st.
Proof.
  unfold integer. destruct (branch_of _ _); try (intros [= <-]; reflexivity).
  destruct (reduce _ _ _ _ _ _) as [[? ?]|]; [|discriminate]. intros [= <-]. reflexivity.
Qed.

Lemma act_openEQ inp ii st st1 :
  act inp ii st = Done st1 -> openEQIdx st1 = openEQIdx st.
Proof.
  unfold act. destruct (Qeq_bool _ 0); simpl; [intros [= <-]; reflexivity|].
  destruct (advanced inp ii _ st) as [st0| |] eqn:A; simpl; try discriminate.
  intros H. rewrite (integer_openEQ _ _ _ _ _ H). eapply advanced_openEQ; eauto.
Qed.

(** Bar [ii] writes [openEQ[ii+1]] and no other entry. *)
Lemma bar_openEQ inp ii st st' :
  bar inp ii st = Done st' ->
  length (openEQIdx st') = length (openEQIdx st) /\
  forall j, j <> (ii + 1)%nat -> rd (openEQIdx st') j = rd (openEQIdx st) j.
Proof.
  unfold bar. destruct (act inp ii st) as [st1| |] eqn:A; simpl; try discriminate.
  intros [= <-]. apply act_openEQ in A. unfold mark_bar.
  destruct (openPosition st1 =? 0)%Z; simpl; rewrite A; [auto|].
  split; [apply length_insert|]. intros j Hj. apply rd_insert_ne. lia.
Qed.

Lemma iterate_openEQ inp n : forall ii st st',
  iterate inp n ii st = Done st' ->
  forall j, (j <= ii)%nat -> rd (openEQIdx st') j = rd (openEQIdx st) j.
Proof.
  induction n as [|n IH]; intros ii st st'; simpl.
  - intros [= <-]. reflexivity.
  - destruct (bar inp ii st) as [st1| |] eqn:B; simpl; try discriminate.
    intros H j Hj. rewrite (IH _ _ _ H j) by lia.
    apply (bar_openEQ _ _ _ _ B). lia.
Qed.

(** At the top of bar [ii] the entries after [ii] are still the zeros of the
    fresh output column. *)
Lemma at_bar_openEQ inp sigIdx ii st :
  at_bar inp sigIdx ii st ->
  length (openEQIdx st) = rowsData inp /\
  forall j, (ii < j)%nat -> rd (openEQIdx st) j = 0.
Proof.
  induction 1 as [|ii st st' _ [IHl IHz] _ Hb].
  - simpl. split; [apply length_replicate | intros; apply rd_zeros].
  - destruct (bar_openEQ _ _ _ _ Hb) as [Hl Hj]. split; [congruence|].
    intros j Hlt. rewrite Hj by lia. apply IHz. lia.
Qed.

(** C9, as the code has it.  What bar [ii] leaves in [openEQ[ii+1]], and what
    the rest of the loop keeps there: with a nonzero position the mark to
    market of the lots then on the ledger, zero otherwise.  The reference
    price is row [ii+1] of the second column of a two-column input and of the
    fourth column of a four-column input. *)
Theorem open_equity_of_bar inp sigIdx ii st st' n st_end :
  valid_shape inp ->
  at_bar inp sigIdx ii st -> (ii < rowsSig inp - 1)%nat ->
  bar inp ii st = Done st' ->
  iterate inp n (S ii) st' = Done st_end ->
  let column := if (colsData inp =? 4)%nat then 3%nat else 1%nat in
  let reference_price := rd (dataIn inp) (ii + 1 + rowsData inp * column) in
  (openPosition st' <> 0%Z ->
   rd (openEQIdx st_end) (ii + 1) ==
   mark_to_market reference_price (BIG_POINT inp) (openLedger st')) /\
  (openPosition st' = 0%Z -> rd (openEQIdx st_end) (ii + 1) = 0).
Proof.
  intros Hv Hat Hii Hb Hend column reference_price.
  rewrite (iterate_openEQ _ _ _ _ _ Hend (ii + 1)%nat) by lia.
  destruct (at_bar_openEQ _ _ _ _ Hat) as [Hl Hz].
  destruct Hv as (Hr & _). unfold bar in Hb.
  destruct (act inp ii st) as [st1| |] eqn:A; simpl in Hb; try discriminate.
  injection Hb as <-. apply act_openEQ in A.
  destruct (mark_bar_ledger inp ii st1) as (-> & -> & _).
  unfold mark_bar. destruct (Z.eqb_spec (openPosition st1) 0) as [E|E]; split; intros H;
    try contradiction.
  - rewrite A. apply Hz. lia.
  - simpl. rewrite A, rd_insert_eq by lia. rewrite mark_sum, Hz by lia.
    unfold reference_price, column, SHIFT_CLOSE, shifter. ring.
Qed.

(** ** The range of int, checked *)

Lemma int_range_check (z : Z) : int_rangeb z = true -> int_range z.
Proof.
  unfold int_rangeb, int_range. intros H. apply andb_true_iff in H.
  destruct H as [H1 H2]. apply Z.leb_le in H1, H2. lia.
Qed.

Lemma signal_in_int_check (s : Q) : signal_in_intb s = true -> signal_in_int s.
Proof.
  unfold signal_in_intb, signal_in_int. intros H. apply negb_true_iff in H.
  apply Qnot_le_lt. intros X. apply Qle_bool_iff in X. congruence.
Qed.

Lemma state_in_int_check (st : state) : state_in_intb st = true -> state_in_int st.
Proof.
  unfold state_in_intb, state_in_int. intros H. apply andb_true_iff in H.
  destruct H as [H1 H2]. split; [now apply int_range_check|].
  apply Forall_forall. intros e He. apply int_range_check.
  rewrite forallb_forall in H2. apply H2. now apply list_elem_of_In.
Qed.

Lemma iterate_snoc inp n : forall ii st,
  iterate inp (S n) ii st = (st' ← iterate inp n ii st; bar inp (ii + n) st').
Proof.
  induction n as [|n IH]; intros ii st.
  - simpl. rewrite Nat.add_0_r. destruct (bar inp ii st); reflexivity.
  - specialize (IH (S ii)). simpl in *.
    destruct (bar inp ii st) as [st1| |]; simpl; try reflexivity.
    rewrite IH. now replace (ii + S n)%nat with (S (ii + n)) by lia.
Qed.

(** Every state the loop reaches comes out of the loop function. *)
Lemma at_bar_iterate inp sigIdx ii st :
  at_bar inp sigIdx ii st ->
  exists n, ii = (sigIdx + 1 + n)%nat /\ (n <= rowsSig inp - 1 - (sigIdx + 1))%nat /\
            iterate inp n (sigIdx + 1) (seed inp sigIdx) = Done st.
Proof.
  induction 1 as [|ii st st' _ (n & -> & Hn & Hi) Hlt Hb].
  - exists 0%nat. repeat split; [lia | lia].
  - exists (S n). repeat split; [lia | lia |].
    rewrite iterate_snoc, Hi. exact Hb.
Qed.

Lemma stays_in_int_sound inp N : forall ii st0 n st,
  stays_in_int inp N ii st0 = true -> (n <= N)%nat ->
  iterate inp n ii st0 = Done st -> state_in_intb st = true.
Proof.
  induction N as [|N IH]; intros ii st0 n st Hs Hn Hi.
  - assert (n = 0%nat) as -> by lia. simpl in *. injection Hi as <-.
    now apply andb_true_iff in Hs.
  - simpl in Hs. apply andb_true_iff in Hs. destruct Hs as [H0 Hs].
    destruct n as [|n]; [simpl in Hi; injection Hi as <-; exact H0|].
    simpl in Hi. destruct (bar inp ii st0) as [st1| |]; simpl in Hi; try discriminate.
    apply (IH (S ii) st1 n st Hs); [lia | exact Hi].
Qed.

Lemma run_within_int_check inp sigIdx :
  run_within_intb inp sigIdx = true -> run_within_int inp sigIdx.
Proof.
  unfold run_within_intb. intros H. apply andb_true_iff in H. destruct H as [H Hst].
  apply andb_true_iff in H. destruct H as [H0 Hsig]. split; [|split].
  - now apply signal_in_int_check.
  - intros j Hj. apply signal_in_int_check. rewrite forallb_forall in Hsig.
    apply Hsig. apply in_seq. lia.
  - intros ii st Hat. apply state_in_int_check.
    destruct (at_bar_iterate _ _ _ _ Hat) as (n & _ & Hn & Hi).
    eapply stays_in_int_sound; eauto.
Qed.

(** ** Reverse *)

Lemma reverse_bar inp ii st (k : Z) :
  let s := rd (sigIn inp) ii in
  s == inject_Z k + (1 # 2) \/ s == inject_Z k - (1 # 2) ->
  int_cast s = k ->
  additive (openPosition st) s = false -> additive 0 s = true ->
  reverses_to inp ii st k.
Proof.
  intros s E Hk Ha Hb. destruct (half_is_fraction s k E Hk) as [Hf Hkn].
  assert (Qeq_bool s 0 = false) as Hz.
  { apply not_true_iff_false. intros Z0. apply Qeq_bool_iff in Z0.
    unfold additive in Hb. simpl in Hb.
    apply orb_true_iff in Hb. destruct Hb as [Hb|Hb]; apply Qle_bool_iff in Hb; lra. }
  unfold reverses_to, bar, act. fold s. rewrite Hz. simpl.
  unfold advanced. rewrite Hf, Hkn, Ha.
  unfold knownAdvSig in Hkn. cbv zeta in Hkn. rewrite Hkn. simpl.
  unfold integer, branch_of. cbn [openPosition]. rewrite Hb. simpl.
  eexists. split; [reflexivity|].
  destruct (mark_bar_ledger inp ii
    {| openLedger := [createLineEntry (Z.of_nat ii) (int_cast s) (rd (dataIn inp) (ii + 1))];
       openPosition := 0 + int_cast s;
       cashIdx := <[(ii + 1)%nat := liquidate (rd (dataIn inp) (ii + 1)) (BIG_POINT inp)
                     (COST inp) (openLedger st) (rd (cashIdx st) (ii + 1))]> (cashIdx st);
       openEQIdx := openEQIdx st |}) as (-> & -> & ->).
  simpl. rewrite Hk. repeat split.
  intros Hlen. rewrite rd_insert_eq by exact Hlen.
  rewrite liquidate_realized. reflexivity.
Qed.

(** C7. Within the range of int (X at most INT_MAX, the position and the
    lots held in ints): with a short position and a signal X.5, X >= 1, the
    bar leaves a position of exactly +X and the whole short position
    liquidated, its liquidation value added to the cash of the next row;
    with a long position and a signal -X.5, a position of exactly -X. *)
Theorem reverse_symmetry inp ii st (X : Z) :
  (1 <= X <= INT_MAX)%Z -> state_in_int st ->
  ((openPosition st < 0)%Z -> rd (sigIn inp) ii == inject_Z X + (1 # 2) ->
   reverses_to inp ii st X) /\
  ((0 < openPosition st)%Z -> rd (sigIn inp) ii == - (inject_Z X + (1 # 2)) ->
   reverses_to inp ii st (- X)).
Proof.
  intros [HX _] _.
  assert (1 <= inject_Z X) as HXq by (change 1 with (inject_Z 1); now rewrite <- Zle_Qle).
  split; intros HP E.
  - apply reverse_bar.
    + now left.
    + apply int_cast_half_pos; [lia | exact E].
    + unfold additive.
      destruct (Z.geb_spec (openPosition st) 0); [lia|]. rewrite andb_false_l, orb_false_r.
      apply andb_false_iff. right. apply not_true_iff_false. rewrite Qle_bool_iff. lra.
    + unfold additive. simpl. apply orb_true_iff. right. apply Qle_bool_iff. lra.
  - apply reverse_bar.
    + right. rewrite inject_Z_opp. lra.
    + apply int_cast_half_neg; [lia | exact E].
    + unfold additive.
      destruct (Z.leb_spec (openPosition st) 0); [lia|]. rewrite andb_false_l, orb_false_l.
      apply andb_false_iff. right. apply not_true_iff_false. rewrite Qle_bool_iff. lra.
    + unfold additive. simpl. apply orb_true_iff. left. apply Qle_bool_iff. lra.
Qed.

(** ** Concrete runs *)

(** C1 (the code departs from the claim).  The sale of 3 meets a front lot
    of 2: FIFO removes it and takes 1 from the next lot, leaving 2 at 12 and a
    cash of (13-11)*2 + (13-12)*1 = 5.  The loop compares the lot's magnitude
    with the negative [needQty], so it books all 3 on the front lot, which
    stays on the ledger with quantity -1, and the cash is (13-11)*3 = 6. *)
Theorem long_sale_overdraws_front_lot :
  bars long_two_lots 0 =
    Done {| openLedger := [createLineEntry 0 (-1) 11; createLineEntry 1 3 12];
            openPosition := 2;
            cashIdx := [0; 0; 0; 6];
            openEQIdx := [0; 0; 2; 1] |}.
Proof. vm_compute. reflexivity. Qed.

(** C2 (the code departs from the claim).  The buy of 3 removes the short
    lot of 2 and shrinks the next one by 1.  By the formula the cash is
    (13-11)*(-2) + (13-12)*(-1) = -5; the removal in the partial loop
    multiplies by [-quantity], the sign of a long lot, and the code books
    (13-11)*2 + (13-12)*(-1) = 3. *)
Theorem short_cover_books_wrong_sign :
  exists st, bars short_two_lots 0 = Done st /\
    openLedger st = [createLineEntry 1 (-2) 12] /\
    rd (cashIdx st) 3 == 3 /\
    realized_cash 13 (createLineEntry 0 (-2) 11) (-2) 1 0
      + realized_cash 13 (createLineEntry 1 (-3) 12) (-1) 1 0 == -5.
Proof.
  eexists. split; [vm_compute; reflexivity|]. repeat split.
Qed.

(** C3 (the code departs from the claim).  Short 50 and the signal -1.5:
    the call does not fail; the signal is taken as a sale of 1 and the
    position becomes -51. *)
Theorem reverse_to_short_while_short_is_applied :
  (exists st, bars short_then_reverse_short 0 = Done st /\
     openPosition st = (-51)%Z /\
     openLedger st = [createLineEntry 0 (-50) 11; createLineEntry 1 (-1) 12]) /\
  mexFunction short_then_reverse_short =
    Done {| cash_OUT := [0; 0; 0]; openEQ_OUT := [0; 0; -50];
            netLiq_OUT := [0; 0; -50]; returns_OUT := [0; 0; -50] |}.
Proof.
  split; [eexists; split; [vm_compute; reflexivity | split; reflexivity]|].
  vm_compute. reflexivity.
Qed.

(** C5 (the code departs from the claim).  The sale of 2 meets a front lot
    of 1; the loop leaves a lot of -1 in front of a lot of 4 while the
    position is 3: the ledger mixes signs. *)
Theorem long_sale_mixes_signs :
  exists st, bars long_small_front 0 = Done st /\
    openPosition st = 3%Z /\
    map quantity (openLedger st) = [(-1)%Z; 4%Z].
Proof. eexists. split; [vm_compute; reflexivity|]. split; reflexivity. Qed.

(** C4 fails as stated.  A signal of 0.25 before any trade, a first trade of
    2.25 and a signal of 2.25 on the final bar are not checked: the call
    returns its four series.  And the error of a checked bar is the same
    whichever bar the signal sits on: it carries no bar index. *)
Lemma unchecked_invalid_signals :
  invalid_signal (1 # 4) = true /\ invalid_signal (9 # 4) = true /\
  mexFunction (narrow [10; 11; 12; 13] [10; 11; 12; 13] [1 # 4; 0; 0; 0] 1 0) =
    Done {| cash_OUT := [0; 0; 0; 0]; openEQ_OUT := [0; 0; 0; 0];
            netLiq_OUT := [0; 0; 0; 0]; returns_OUT := [0; 0; 0; 0] |} /\
  mexFunction (narrow [10; 11; 12; 13] [10; 11; 12; 13] [9 # 4; 0; 0; 0] 1 0) =
    Done {| cash_OUT := [0; 0; 0; 0]; openEQ_OUT := [0; 0; 2; 4];
            netLiq_OUT := [0; 0; 2; 4]; returns_OUT := [0; 0; 2; 2] |} /\
  mexFunction (narrow [10; 11; 12; 13] [10; 11; 12; 13] [2; 0; 0; 9 # 4] 1 0) =
    Done {| cash_OUT := [0; 0; 0; 0]; openEQ_OUT := [0; 0; 2; 4];
            netLiq_OUT := [0; 0; 2; 4]; returns_OUT := [0; 0; 2; 2] |} /\
  mexFunction (narrow [10; 11; 12; 13] [10; 11; 12; 13] [2; 9 # 4; 0; 0] 1 0) =
    Abort (fractionUnknown 295 (9 # 4)) /\
  mexFunction (narrow [10; 11; 12; 13] [10; 11; 12; 13] [2; 0; 9 # 4; 0] 1 0) =
    Abort (fractionUnknown 295 (9 # 4)).
Proof. repeat split; vm_compute; reflexivity. Qed.

(** C9 fails as stated.  In the two-column form the execution column (the
    open, 12 at row 2) is not the reference: the long lot of 2 entered at 11
    is marked at the close of 15, an open equity of 8 and not of 2. *)
Lemma narrow_form_marks_second_column :
  exists st', bar open_differs_from_close 1 (seed open_differs_from_close 0) = Done st' /\
    openPosition st' = 2%Z /\
    rd (openEQIdx st') 2 == 8 /\
    mark_to_market (rd (dataIn open_differs_from_close) (1 + 1 + SHIFT_OPEN))
      (BIG_POINT open_differs_from_close) (openLedger st') == 2 /\
    ~ rd (openEQIdx st') 2 ==
      mark_to_market (rd (dataIn open_differs_from_close) (1 + 1 + SHIFT_OPEN))
        (BIG_POINT open_differs_from_close) (openLedger st') /\
    mexFunction open_differs_from_close =
      Done {| cash_OUT := [0; 0; 0]; openEQ_OUT := [0; 0; 8];
              netLiq_OUT := [0; 0; 8]; returns_OUT := [0; 0; 8] |}.
Proof.
  eexists. split; [vm_compute; reflexivity|].
  repeat split; try (vm_compute; congruence).
Qed.

(** The pass of lines 400-406 can overwrite what the bar loop wrote: the
    loop leaves an open equity of (14-11)*2 = 6 at row 2, the call returns the
    cash of row 3 there. *)
Lemma normalization_overwrites_open_equity :
  (exists st, bars profit_closed_next_bar 0 = Done st /\
     openEQIdx st = [0; 0; 6; 0] /\ cashIdx st = [0; 0; 0; 4]) /\
  mexFunction profit_closed_next_bar =
    Done {| cash_OUT := [0; 0; 0; 4]; openEQ_OUT := [0; 0; 4; 0];
            netLiq_OUT := [0; 0; 4; 4]; returns_OUT := [0; 0; 4; 0] |}.
Proof.
  split; [eexists; split; [vm_compute; reflexivity | split; reflexivity]|].
  vm_compute. reflexivity.
Qed.

(** ** The theorems at concrete inputs *)

Lemma invalid_signal_aborts_witness :
  exists k, (0 < k < rowsSig invalid_mid_run - 1)%nat /\
            invalid_signal (rd (sigIn invalid_mid_run) k) = true /\
            (forall j, (0 < j < k)%nat ->
                       invalid_signal (rd (sigIn invalid_mid_run) j) = false) /\
            mexFunction invalid_mid_run =
              Abort (fractionUnknown 295 (rd (sigIn invalid_mid_run) k)).
Proof.
  apply (invalid_signal_aborts invalid_mid_run 0).
  - repeat split; auto.
  - reflexivity.
  - apply run_within_int_check. vm_compute. reflexivity.
  - exists 1%nat. split; [simpl; lia | reflexivity].
Defined.

Lemma ledger_conservation_witness :
  mutated short_two_lots 0 short_two_lots_covered /\
  sumQty (openLedger short_two_lots_covered) = openPosition short_two_lots_covered.
Proof.
  assert (mutated short_two_lots 0 short_two_lots_covered) as M.
  { apply (mut_integer short_two_lots 0 2 short_two_lots_at_2 short_two_lots_at_2).
    - apply (at_next short_two_lots 0 1 (seed short_two_lots 0)).
      + apply at_seed.
      + simpl. lia.
      + vm_compute. reflexivity.
    - simpl. lia.
    - reflexivity.
    - vm_compute. reflexivity.
    - vm_compute. reflexivity. }
  split; [exact M|].
  apply (ledger_conservation short_two_lots 0 short_two_lots_covered M).
Defined.

Lemma reverse_symmetry_witness :
  reverses_to short_then_reverse_long 1 (seed short_then_reverse_long 0) 1 /\
  reverses_to long_then_reverse_short 1 (seed long_then_reverse_short 0) (-1).
Proof.
  assert (1 <= 1 <= INT_MAX)%Z as HX by (vm_compute; split; discriminate).
  split.
  - apply (proj1 (reverse_symmetry short_then_reverse_long 1
                    (seed short_then_reverse_long 0) 1 HX
                    (state_in_int_check (seed short_then_reverse_long 0) eq_refl)));
      vm_compute; reflexivity.
  - apply (proj2 (reverse_symmetry long_then_reverse_short 1
                    (seed long_then_reverse_short 0) 1 HX
                    (state_in_int_check (seed long_then_reverse_short 0) eq_refl)));
      vm_compute; reflexivity.
Defined.

Lemma no_trade_zeros_witness :
  mexFunction only_final_bar_signal =
    Done {| cash_OUT := [0; 0; 0]; openEQ_OUT := [0; 0; 0];
            netLiq_OUT := [0; 0; 0]; returns_OUT := [0; 0; 0] |}.
Proof.
  apply (no_trade_zeros only_final_bar_signal).
  - repeat split; auto.
  - intros [|[|[|i]]] s E H; simpl in E; try discriminate E; try reflexivity;
      injection E as <-; exfalso; vm_compute in H; apply H; reflexivity.
Defined.

Lemma open_equity_of_bar_witness :
  rd (openEQIdx open_differs_from_close_after_1) 2 ==
  mark_to_market 15 1 [createLineEntry 0 2 11].
Proof.
  assert (valid_shape open_differs_from_close) as V by (repeat split; auto).
  assert (1 < rowsSig open_differs_from_close - 1)%nat as L by (simpl; lia).
  assert (bar open_differs_from_close 1 (seed open_differs_from_close 0)
          = Done open_differs_from_close_after_1) as B by (vm_compute; reflexivity).
  assert (iterate open_differs_from_close 0 2 open_differs_from_close_after_1
          = Done open_differs_from_close_after_1) as I by reflexivity.
  apply (proj1 (open_equity_of_bar open_differs_from_close 0 1
                  (seed open_differs_from_close 0) open_differs_from_close_after_1
                  0 open_differs_from_close_after_1
                  V (at_seed open_differs_from_close 0) L B I)).
  simpl. lia.
Defined.

Lemma partial_branch_whole_signal_witness :
  (fraction 3 = false /\
   inject_Z (int_cast 3) == 3 /\
   inject_Z (int_cast (inject_Z (-5) + 3)) == inject_Z (-5) + 3) /\
  ((exists e, advanced short_then_reverse_long 1 (3 # 2) (seed short_then_reverse_long 0)
              = Abort e) \/
   (advanced short_then_reverse_long 1 (3 # 2) (seed short_then_reverse_long 0)
    = Done (seed short_then_reverse_long 0) /\
    branch_of (-50) (3 # 2) = Additive) \/
   (exists st1, advanced short_then_reverse_long 1 (3 # 2) (seed short_then_reverse_long 0)
                = Done st1 /\
      openPosition st1 = 0%Z /\ openLedger st1 = [] /\
      (branch_of 0 (3 # 2) = Additive \/
       (branch_of 0 (3 # 2) = FullLiquidation /\ int_cast (3 # 2) = 0%Z)))).
Proof.
  split.
  - apply (proj2 (partial_branch_whole_signal short_two_lots 2 short_two_lots_at_2)
             short_two_lots_at_2); vm_compute; reflexivity.
  - apply (proj1 (partial_branch_whole_signal short_then_reverse_long 1
                    (seed short_then_reverse_long 0))).
    vm_compute. reflexivity.
Defined.

(** * Further properties of the code *)

(** ** The scan for the first trade *)

Lemma scan_first sig : forall k0 k,
  (k < length sig)%nat -> 1 <= Qabs (rd sig k) ->
  (forall j, (j < k)%nat -> ~ 1 <= Qabs (rd sig j)) ->
  scan sig k0 = (true, (k0 + k)%nat).
Proof.
  induction sig as [|s rest IH]; intros k0 k Hk H1 Hj; simpl in *; [lia|].
  destruct k as [|k].
  - change (rd (s :: rest) 0) with s in H1. apply Qle_bool_iff in H1. rewrite H1.
    now rewrite Nat.add_0_r.
  - destruct (Qle_bool 1 (Qabs s)) eqn:L.
    + exfalso. apply (Hj 0%nat); [lia|]. now apply Qle_bool_iff in L.
    + replace (k0 + S k)%nat with (S k0 + k)%nat by lia. apply IH; [lia|exact H1|].
      intros j Hlt. apply (Hj (S j)). lia.
Qed.

Lemma scan_all_small sig : forall k0,
  (forall j, (j < length sig)%nat -> ~ 1 <= Qabs (rd sig j)) ->
  scan sig k0 = (false, (k0 + length sig)%nat).
Proof.
  induction sig as [|s rest IH]; intros k0 Hj; simpl.
  - now rewrite Nat.add_0_r.
  - destruct (Qle_bool 1 (Qabs s)) eqn:L.
    + exfalso. apply (Hj 0%nat); [simpl; lia|]. now apply Qle_bool_iff in L.
    + replace (k0 + S (length rest))%nat with (S k0 + length rest)%nat by lia.
      apply IH. intros j Hlt. apply (Hj (S j)). simpl. lia.
Qed.

Lemma scan_none_index sig : forall k0 k,
  scan sig k0 = (false, k) -> k = (k0 + length sig)%nat.
Proof.
  induction sig as [|s rest IH]; intros k0 k; simpl.
  - intros [= <-]. lia.
  - destruct (Qle_bool 1 (Qabs s)); [discriminate|].
    intros H. apply IH in H. lia.
Qed.

(** The scan of lines 219-226 returns the first bar whose signal has
    magnitude 1 or more; it reports no trade exactly when there is no such
    bar, and then its counter stands at the number of rows. *)
Theorem scan_first_trade (sig : list Q) (k : nat) :
  (scan sig 0 = (true, k) <->
     (k < length sig)%nat /\ 1 <= Qabs (rd sig k) /\
     forall j, (j < k)%nat -> ~ 1 <= Qabs (rd sig j)) /\
  (scan sig 0 = (false, k) <->
     k = length sig /\ forall j, (j < length sig)%nat -> ~ 1 <= Qabs (rd sig j)).
Proof.
  split; split.
  - intros H. destruct (scan_found _ _ _ H) as (Hk & H1 & Hj).
    rewrite Nat.sub_0_r in *. repeat split; [lia|exact H1|].
    intros j Hlt X. apply Qle_bool_iff in X. rewrite (Hj j Hlt) in X. discriminate.
  - intros (Hk & H1 & Hj). apply (scan_first sig 0 k Hk H1 Hj).
  - intros H. split; [apply (scan_none_index _ _ _ H)|].
    apply scan_none in H. intros j Hlt X.
    destruct (lookup_lt_is_Some_2 sig j Hlt) as [s Hs].
    rewrite Forall_lookup in H. specialize (H j s Hs). simpl in H.
    unfold rd in X. rewrite Hs in X. simpl in X. apply Qle_bool_iff in X. congruence.
  - intros [-> Hj]. apply (scan_all_small sig 0 Hj).
Qed.

(** ** The outcomes of a call *)

Lemma first_true_or_none (P : nat -> bool) n : forall a,
  (forall j, (a <= j < a + n)%nat -> P j = false) \/
  (exists k, (a <= k < a + n)%nat /\ P k = true /\
             forall j, (a <= j < k)%nat -> P j = false).
Proof.
  induction n as [|n IH]; intros a.
  - left. intros j Hj. lia.
  - destruct (P a) eqn:Pa.
    + right. exists a. repeat split; try lia. exact Pa.
    + destruct (IH (S a)) as [Hall|(k & Hk & HP & Hj)].
      * left. intros j Hj. destruct (Nat.eq_dec j a) as [->|]; [exact Pa|apply Hall; lia].
      * right. exists k. repeat split; try lia; [exact HP|].
        intros j Hj'. destruct (Nat.eq_dec j a) as [->|]; [exact Pa|apply Hj; lia].
Qed.

(** The bar loop ends in a state, or aborts at the first iterated signal that
    is invalid; it never reads the front of an empty deque. *)
Lemma bars_outcome inp sigIdx :
  1 <= Qabs (rd (sigIn inp) sigIdx) ->
  ((forall j, (sigIdx < j < rowsSig inp - 1)%nat ->
              invalid_signal (rd (sigIn inp) j) = false) /\
   exists st, bars inp sigIdx = Done st /\ ledger_ok st) \/
  (exists k, (sigIdx < k < rowsSig inp - 1)%nat /\
             invalid_signal (rd (sigIn inp) k) = true /\
             bars inp sigIdx = Abort (fractionUnknown 295 (rd (sigIn inp) k))).
Proof.
  intros H1. pose proof (seed_ok inp sigIdx H1) as Hok. unfold bars.
  destruct (first_true_or_none (fun j => invalid_signal (rd (sigIn inp) j))
              (rowsSig inp - 1 - (sigIdx + 1)) (sigIdx + 1)) as [Hall|(k & Hk & Hbad & Hj)].
  - left. split.
    + intros j Hj. apply Hall. lia.
    + apply iterate_valid; assumption.
  - right. exists k. split; [lia|]. split; [exact Hbad|].
    apply iterate_invalid; assumption.
Qed.

(** For a shape-valid call with a first trade and a run within the range of
    int, the bar loop of lines 246-388 either runs to its end or aborts with
    the error of line 295 at the first invalid signal of an iterated bar.  It
    never calls [front()] on an empty ledger and never raises the error of
    line 286. *)
Theorem bar_loop_outcomes (inp : mexInputs) (sigIdx : nat) :
  valid_shape inp ->
  scan (sigIn inp) 0 = (true, sigIdx) ->
  run_within_int inp sigIdx ->
  (exists st, bars inp sigIdx = Done st) \/
  (exists k, (sigIdx < k < rowsSig inp - 1)%nat /\
             invalid_signal (rd (sigIn inp) k) = true /\
             (forall j, (sigIdx < j < k)%nat -> invalid_signal (rd (sigIn inp) j) = false) /\
             bars inp sigIdx = Abort (fractionUnknown 295 (rd (sigIn inp) k))).
Proof.
  intros _ Hs _. destruct (scan_found _ _ _ Hs) as (_ & H1 & _).
  rewrite Nat.sub_0_r in H1. pose proof (seed_ok inp sigIdx H1) as Hok. unfold bars.
  destruct (first_true_or_none (fun j => invalid_signal (rd (sigIn inp) j))
              (rowsSig inp - 1 - (sigIdx + 1)) (sigIdx + 1)) as [Hall|(k & Hk & Hbad & Hj)].
  - left. destruct (iterate_valid inp _ _ _ Hok Hall) as (st & -> & _). eauto.
  - right. exists k. split; [lia|]. split; [exact Hbad|]. split.
    + intros j Hlt. apply Hj. lia.
    + apply iterate_invalid; assumption.
Qed.

(** The three shape checks of lines 161-171, in their order: a call aborts
    with [ArrayMismatch] exactly when the row counts differ (line 163), or
    else the signal has more than one column (167), or else the prices have
    neither two nor four columns (171). *)
Theorem array_mismatch_iff (inp : mexInputs) (line : Z) :
  mexFunction inp = Abort (ArrayMismatch line) <->
  (line = 163%Z /\ rowsData inp <> rowsSig inp) \/
  (line = 167%Z /\ rowsData inp = rowsSig inp /\ (1 < colsSig inp)%nat) \/
  (line = 171%Z /\ rowsData inp = rowsSig inp /\ (colsSig inp <= 1)%nat /\
   colsData inp <> 2%nat /\ colsData inp <> 4%nat).
Proof.
  unfold mexFunction.
  destruct (Nat.eqb_spec (rowsData inp) (rowsSig inp)) as [Er|Er]; simpl.
  2:{ split; [intros [= <-]; auto|]. intros [[-> _]|[(_ & ? & _)|(_ & ? & _)]]; congruence. }
  destruct (Nat.ltb_spec 1 (colsSig inp)) as [Ec|Ec].
  { split; [intros [= <-]; auto|]. intros [[_ ?]|[(-> & _)|(_ & _ & ? & _)]];
      [contradiction|reflexivity|lia]. }
  destruct (Nat.eqb_spec (colsData inp) 2) as [E2|E2],
           (Nat.eqb_spec (colsData inp) 4) as [E4|E4]; simpl.
  4:{ split; [intros [= <-]; right; right; auto|].
      intros [[_ ?]|[(_ & _ & ?)|(-> & _)]]; [contradiction|lia|reflexivity]. }
  all: split; [|intros [[_ ?]|[(_ & _ & ?)|(_ & _ & _ & ? & ?)]]; try contradiction; lia].
  all: destruct (scan (sigIn inp) 0) as [[|] sigIdx] eqn:Hs; simpl; try discriminate.
  all: destruct (sigIdx <? rowsSig inp)%nat; try discriminate.
  all: destruct (scan_found _ _ _ Hs) as (_ & H1 & _); rewrite Nat.sub_0_r in H1.
  all: destruct (bars_outcome inp sigIdx H1) as [(_ & st & -> & _)|(k & Hk & Hbad & ->)];
    simpl; discriminate.
Qed.

(** A shape-valid call whose run stays within the range of int returns its
    four series exactly when no signal on an iterated bar (after the bar of the
    first trade, before the final bar) is invalid. *)
Theorem call_succeeds_iff (inp : mexInputs) :
  valid_shape inp ->
  (forall sigIdx, scan (sigIn inp) 0 = (true, sigIdx) -> run_within_int inp sigIdx) ->
  (exists out, mexFunction inp = Done out) <->
  (forall sigIdx j, scan (sigIn inp) 0 = (true, sigIdx) ->
     (sigIdx < j < rowsSig inp - 1)%nat ->
     invalid_signal (rd (sigIn inp) j) = false).
Proof.
  intros Hv _. rewrite (mexFunction_shape inp Hv).
  destruct (scan (sigIn inp) 0) as [[|] sigIdx] eqn:Hs; simpl.
  2:{ split; [intros _ ? ? [=]|eauto]. }
  destruct (scan_found _ _ _ Hs) as (Hk & H1 & _). rewrite Nat.sub_0_r in H1.
  destruct Hv as (_ & _ & _ & Hl & _). rewrite Hl in Hk.
  destruct (Nat.ltb_spec sigIdx (rowsSig inp)); [|lia].
  destruct (bars_outcome inp sigIdx H1) as [(Hall & st & -> & _)|(k & Hk' & Hbad & ->)]; simpl.
  - split; [|eauto]. intros _ sigIdx' j [= <-]. apply Hall.
  - split; [intros [out [=]]|]. intros Hno. rewrite (Hno sigIdx k eq_refl Hk') in Hbad.
    discriminate.
Qed.

(** ** The lengths of the series *)

Lemma advanced_cash_length inp ii s st st1 :
  advanced inp ii s st = Done st1 -> length (cashIdx st1) = length (cashIdx st).
Proof.
  intros H. destruct (advanced_done _ _ _ _ _ H) as [[-> _]|(_ & _ & _ & ->)];
    [reflexivity | apply length_insert].
Qed.

Lemma integer_cash_length inp ii s st st1 :
  integer inp ii s st = Done st1 -> length (cashIdx st1) = length (cashIdx st).
Proof.
  unfold integer. destruct (branch_of _ _).
  - intros [= <-]. reflexivity.
  - intros [= <-]. apply length_insert.
  - destruct (reduce _ _ _ _ _ _) as [[? ?]|]; [|discriminate].
    intros [= <-]. apply length_insert.
Qed.

Lemma bar_cash_length inp ii st st' :
  bar inp ii st = Done st' -> length (cashIdx st') = length (cashIdx st).
Proof.
  unfold bar. destruct (act inp ii st) as [st1| |] eqn:A; simpl; try discriminate.
  intros [= <-]. destruct (mark_bar_ledger inp ii st1) as (_ & _ & ->).
  unfold act in A. destruct (Qeq_bool _ 0); simpl in A; [now injection A as <-|].
  destruct (advanced inp ii _ st) as [st0| |] eqn:Ad; simpl in A; try discriminate.
  rewrite (integer_cash_length _ _ _ _ _ A). eapply advanced_cash_length; eauto.
Qed.

Lemma iterate_lengths inp n : forall ii st st',
  iterate inp n ii st = Done st' ->
  length (cashIdx st') = length (cashIdx st) /\
  length (openEQIdx st') = length (openEQIdx st).
Proof.
  induction n as [|n IH]; intros ii st st'; simpl.
  - intros [= <-]. auto.
  - destruct (bar inp ii st) as [st1| |] eqn:B; simpl; try discriminate.
    intros H. destruct (IH _ _ _ H) as [-> ->].
    split; [eapply bar_cash_length; eauto | apply (bar_openEQ _ _ _ _ B)].
Qed.

Lemma clean_length rows cash openEQ : length (clean rows cash openEQ) = length openEQ.
Proof.
  unfold clean. revert openEQ. induction (seq 1 (rows - 2)) as [|ll l IH]; intros openEQ;
    simpl; [reflexivity|].
  rewrite IH. unfold clean_bar. destruct (_ && _); [apply length_insert | reflexivity].
Qed.

Lemma sum_bar_lengths cash openEQ l : forall runSum netLiq returns,
  let '(_, netLiq', returns') := fold_left (sum_bar cash openEQ) l (runSum, netLiq, returns) in
  length netLiq' = length netLiq /\ length returns' = length returns.
Proof.
  induction l as [|kk l IH]; intros runSum netLiq returns; simpl; [auto|].
  specialize (IH (runSum + rd cash kk) (<[kk := runSum + rd cash kk + rd openEQ kk]> netLiq)
    (if (0 <? kk)%nat
     then <[kk := rd (<[kk := runSum + rd cash kk + rd openEQ kk]> netLiq) kk
                  - rd (<[kk := runSum + rd cash kk + rd openEQ kk]> netLiq) (kk - 1)]> returns
     else returns)).
  destruct (fold_left _ _ _) as [[r n] ret]. destruct IH as [-> ->].
  rewrite length_insert. split; [reflexivity|].
  destruct (0 <? kk)%nat; [apply length_insert | reflexivity].
Qed.

Lemma sums_lengths rows cash openEQ :
  length (fst (sums rows cash openEQ)) = rows /\
  length (snd (sums rows cash openEQ)) = rows.
Proof.
  unfold sums.
  pose proof (sum_bar_lengths cash openEQ (seq 0 rows) 0 (zeros rows) (<[0%nat := 0]> (zeros rows))) as H.
  destruct (fold_left _ _ _) as [[r n] ret]. simpl.
  destruct H as [-> ->]. rewrite length_insert. unfold zeros.
  now rewrite length_replicate.
Qed.

(** Whenever a call returns, each of the four series has as many rows as the
    price input. *)
Theorem output_lengths (inp : mexInputs) (out : mexOutputs) :
  mexFunction inp = Done out ->
  length (cash_OUT out) = rowsData inp /\ length (openEQ_OUT out) = rowsData inp /\
  length (netLiq_OUT out) = rowsData inp /\ length (returns_OUT out) = rowsData inp.
Proof.
  unfold mexFunction.
  destruct (negb (rowsData inp =? rowsSig inp)%nat); [discriminate|].
  destruct (1 <? colsSig inp)%nat; [discriminate|].
  destruct (negb (colsData inp =? 2)%nat && negb (colsData inp =? 4)%nat); [discriminate|].
  assert (length (zeros (rowsData inp)) = rowsData inp) as Hz by apply length_replicate.
  destruct (scan (sigIn inp) 0) as [anyTrades sigIdx].
  destruct (anyTrades && (sigIdx <? rowsSig inp)%nat).
  2:{ intros [= <-]. simpl. auto. }
  destruct (bars inp sigIdx) as [st| |] eqn:B; simpl; try discriminate.
  intros [= <-]. unfold bars in B. apply iterate_lengths in B. simpl in B.
  rewrite Hz in B. destruct B as [Hc He]. unfold finish.
  pose proof (sums_lengths (rowsData inp) (cashIdx st)
                (clean (rowsData inp) (cashIdx st) (openEQIdx st))) as Hs.
  destruct (sums _ _ _) as [netLiq returns]. simpl in *.
  rewrite clean_length. tauto.
Qed.

(** ** Net liquidity and returns *)

Lemma sum_fold_spec cash openEQ n : forall a r N R,
  length N = length R -> (a + n <= length N)%nat ->
  let '(_, N', R') := fold_left (sum_bar cash openEQ) (seq a n) (r, N, R) in
  (forall k, (k < a)%nat -> rd N' k = rd N k) /\
  (forall k, (k < a)%nat \/ k = 0%nat -> rd R' k = rd R k) /\
  (forall k, (a <= k < a + n)%nat ->
     rd N' k = fold_left (fun x j => x + rd cash j) (seq a (S (k - a))) r + rd openEQ k /\
     ((0 < k)%nat -> rd R' k = rd N' k - rd N' (k - 1))).
Proof.
  induction n as [|n IH]; intros a r N R Hl Hn; simpl.
  - repeat split; intros; try lia; reflexivity.
  - set (r1 := r + rd cash a).
    set (N1 := <[a := r1 + rd openEQ a]> N).
    set (R1 := if (0 <? a)%nat then <[a := rd N1 a - rd N1 (a - 1)]> R else R).
    assert (length N1 = length N) as HN1 by apply length_insert.
    assert (length R1 = length R) as HR1
      by (unfold R1; destruct (0 <? a)%nat; [apply length_insert | reflexivity]).
    specialize (IH (S a) r1 N1 R1). 
    destruct (fold_left (sum_bar cash openEQ) (seq (S a) n) (r1, N1, R1)) as [[r' N'] R'].
    destruct IH as (IN & IR & IK); [congruence | lia |].
    assert (rd N1 a = r1 + rd openEQ a) as Ha by (apply rd_insert_eq; lia).
    split; [|split].
    + intros k Hk. rewrite IN by lia. apply rd_insert_ne. lia.
    + intros k Hk. rewrite IR by lia. unfold R1.
      destruct (Nat.ltb_spec 0 a); [apply rd_insert_ne; lia | reflexivity].
    + intros k Hk. destruct (Nat.eq_dec k a) as [->|Hne].
      * rewrite IN by lia. rewrite Nat.sub_diag. simpl. split; [exact Ha|].
        intros Hpos. rewrite IR by lia. rewrite IN by lia. unfold R1.
        destruct (Nat.ltb_spec 0 a); [|lia]. apply rd_insert_eq. lia.
      * destruct (IK k) as [E1 E2]; [lia|]. split; [|exact E2].
        rewrite E1. replace (k - a)%nat with (S (k - S a)) by lia. reflexivity.
Qed.

Lemma running_sum_zeros n k : running_sum (zeros n) k == 0.
Proof.
  unfold running_sum.
  assert (forall l r, r == 0 -> fold_left (fun x j => x + rd (zeros n) j) l r == 0) as H.
  { induction l as [|j l IH]; intros r Hr; simpl; [exact Hr|].
    apply IH. rewrite rd_zeros, Hr. reflexivity. }
  apply H. reflexivity.
Qed.

(** The aggregation of lines 408-421, read off the series a call returns:
    net liquidity is the running sum of cash plus the open equity of the
    row; the first return is 0 and every later return is the change of net
    liquidity from the row before. *)
Theorem net_liquidity_and_returns (inp : mexInputs) (out : mexOutputs) (k : nat) :
  mexFunction inp = Done out -> (k < rowsData inp)%nat ->
  rd (netLiq_OUT out) k == running_sum (cash_OUT out) k + rd (openEQ_OUT out) k /\
  (k = 0%nat -> rd (returns_OUT out) k == 0) /\
  ((0 < k)%nat ->
   rd (returns_OUT out) k == rd (netLiq_OUT out) k - rd (netLiq_OUT out) (k - 1)).
Proof.
  intros Hm Hk. revert Hm. unfold mexFunction.
  destruct (negb (rowsData inp =? rowsSig inp)%nat); [discriminate|].
  destruct (1 <? colsSig inp)%nat; [discriminate|].
  destruct (negb (colsData inp =? 2)%nat && negb (colsData inp =? 4)%nat); [discriminate|].
  destruct (scan (sigIn inp) 0) as [anyTrades sigIdx].
  destruct (anyTrades && (sigIdx <? rowsSig inp)%nat).
  2:{ intros [= <-]. simpl. rewrite !rd_zeros, running_sum_zeros.
      repeat split; intros; reflexivity. }
  destruct (bars inp sigIdx) as [st| |]; simpl; try discriminate.
  intros [= <-]. unfold finish in *. unfold sums in *.
  pose proof (sum_fold_spec (cashIdx st) (clean (rowsData inp) (cashIdx st) (openEQIdx st))
                (rowsData inp) 0 0 (zeros (rowsData inp)) (<[0%nat := 0]> (zeros (rowsData inp)))) as H.
  destruct (fold_left _ _ _) as [[r N] R]. simpl in *.
  destruct H as (_ & HR & HK).
  { rewrite length_insert. reflexivity. }
  { unfold zeros. rewrite length_replicate. lia. }
  destruct (HK k) as [E1 E2]; [lia|]. rewrite Nat.sub_0_r in E1.
  split; [|split].
  - rewrite E1. reflexivity.
  - intros ->. rewrite HR by auto. rewrite insert_zeros, rd_zeros. reflexivity.
  - intros Hpos. rewrite (E2 Hpos). reflexivity.
Qed.

(** ** The normalization pass *)

Lemma spike_ext cash o1 o2 ll :
  rd o1 ll = rd o2 ll -> rd o1 (ll + 1) = rd o2 (ll + 1) -> spike cash o1 ll = spike cash o2 ll.
Proof. unfold spike. now intros -> ->. Qed.

Lemma clean_fold_spec cash n : forall a o,
  length (fold_left (clean_bar cash) (seq a n) o) = length o /\
  (forall k, (k < a \/ a + n <= k)%nat -> rd (fold_left (clean_bar cash) (seq a n) o) k = rd o k) /\
  (forall k, (a <= k < a + n)%nat -> (k < length o)%nat ->
     rd (fold_left (clean_bar cash) (seq a n) o) k
     = if spike cash o k then rd cash (k + 1) else rd o k).
Proof.
  induction n as [|n IH]; intros a o; simpl.
  - repeat split; intros; try lia; reflexivity.
  - assert (clean_bar cash o a = if spike cash o a then <[a := rd cash (a + 1)]> o else o)
      as E by reflexivity.
    set (o1 := clean_bar cash o a) in *.
    assert (length o1 = length o) as L1
      by (rewrite E; destruct (spike cash o a); [apply length_insert | reflexivity]).
    assert (forall k, k <> a -> rd o1 k = rd o k) as Hne
      by (intros k Hk; rewrite E; destruct (spike cash o a);
          [apply rd_insert_ne; lia | reflexivity]).
    destruct (IH (S a) o1) as (IL & IO & IK). split; [congruence|]. split.
    + intros k Hk. rewrite IO by lia. apply Hne. lia.
    + intros k Hk Hlt. destruct (Nat.eq_dec k a) as [->|Hka].
      * rewrite IO by lia. rewrite E. destruct (spike cash o a); [|reflexivity].
        apply rd_insert_eq. exact Hlt.
      * rewrite IK by lia. rewrite (spike_ext cash o1 o k) by (apply Hne; lia).
        now rewrite Hne by lia.
Qed.

Lemma clean_rows (rows : nat) (cash openEQ : list Q) (ll : nat) :
  length openEQ = rows ->
  ((1 <= ll < rows - 1)%nat ->
   rd (clean rows cash openEQ) ll
   = if spike cash openEQ ll then rd cash (ll + 1) else rd openEQ ll) /\
  ((ll < 1 \/ rows - 1 <= ll)%nat -> rd (clean rows cash openEQ) ll = rd openEQ ll).
Proof.
  intros Hl. unfold clean.
  destruct (clean_fold_spec cash (rows - 2) 1 openEQ) as (_ & HO & HK). split.
  - intros Hll. apply HK; lia.
  - intros Hll. apply HO. lia.
Qed.

(** The in-place loop of lines 400-406 acts on each row independently: the
    row [ll] of the result is the cash of row [ll+1] when the test of line 402
    holds of the series as they were before the pass, and is unchanged
    otherwise; the first row and the final row are never changed. *)
Theorem normalization_rowwise (rows : nat) (cash openEQ : list Q) (ll : nat) :
  length openEQ = rows ->
  ((1 <= ll < rows - 1)%nat ->
   rd (clean rows cash openEQ) ll
   = if spike cash openEQ ll then rd cash (ll + 1) else rd openEQ ll) /\
  ((ll < 1 \/ rows - 1 <= ll)%nat -> rd (clean rows cash openEQ) ll = rd openEQ ll).
Proof. apply clean_rows. Qed.

Lemma rd_ext (a b : list Q) :
  length a = length b -> (forall i, (i < length a)%nat -> rd a i = rd b i) -> a = b.
Proof.
  intros Hl H. apply list_eq. intros i. destruct (Nat.lt_ge_cases i (length a)) as [Hi|Hi].
  - specialize (H i Hi). unfold rd in H.
    destruct (lookup_lt_is_Some_2 a i Hi) as [x Hx].
    destruct (lookup_lt_is_Some_2 b i) as [y Hy]; [lia|].
    rewrite Hx, Hy in *. simpl in H. congruence.
  - rewrite !lookup_ge_None_2 by lia. reflexivity.
Qed.

(** A second run of the normalization pass changes nothing. *)
Theorem normalization_idempotent (rows : nat) (cash openEQ : list Q) :
  length openEQ = rows ->
  clean rows cash (clean rows cash openEQ) = clean rows cash openEQ.
Proof.
  intros Hl. pose proof (clean_length rows cash openEQ) as Hc.
  apply rd_ext; [now rewrite !clean_length|]. intros i _.
  assert (length (clean rows cash openEQ) = rows) as Hl' by congruence.
  destruct (clean_rows rows cash (clean rows cash openEQ) i Hl') as [Hin Hout].
  destruct (Nat.lt_ge_cases i 1) as [Hi|Hi]; [apply Hout; lia|].
  destruct (Nat.lt_ge_cases i (rows - 1)) as [Hi'|Hi']; [|apply Hout; lia].
  rewrite Hin by lia.
  destruct (spike cash (clean rows cash openEQ) i) eqn:S2; [|reflexivity].
  exfalso. unfold spike in S2. apply andb_true_iff in S2. destruct S2 as [S2 Sc].
  apply andb_true_iff in S2. destruct S2 as [Sa Sb]. apply negb_true_iff in Sa.
  destruct (clean_rows rows cash openEQ i Hl) as [Hin1 _].
  rewrite Hin1 in Sa by lia.
  destruct (spike cash openEQ i) eqn:S1.
  { assert (Qeq_bool (rd cash (i + 1)) (rd cash (i + 1)) = true) as X
      by (apply Qeq_bool_iff; reflexivity). congruence. }
  destruct (clean_rows rows cash openEQ (i + 1) Hl) as [Hin2 Hout2].
  destruct (Nat.lt_ge_cases (i + 1) (rows - 1)) as [Hj|Hj].
  - rewrite Hin2 in Sb by lia. destruct (spike cash openEQ (i + 1)) eqn:S3.
    + unfold spike in S3. apply andb_true_iff in S3. destruct S3 as [_ S3].
      unfold Qgt_bool in S3. apply negb_true_iff in S3.
      apply Qeq_bool_iff in Sb. rewrite <- not_true_iff_false, Qle_bool_iff in S3.
      apply S3. rewrite Sb. apply Qle_refl.
    + unfold spike in S1. rewrite Sa, Sb, Sc in S1. discriminate.
  - rewrite Hout2 in Sb by lia. unfold spike in S1. rewrite Sa, Sb, Sc in S1. discriminate.
Qed.

(** ** Known advanced signals *)

(** Of the signals that convert to an int, [knownAdvSig] accepts exactly the
    odd multiples of one half. *)
Theorem knownAdvSig_iff (s : Q) :
  signal_in_int s ->
  knownAdvSig s = true <-> exists z : Z, s == inject_Z z + (1 # 2).
Proof.
  intros _. split.
  - unfold knownAdvSig. cbv zeta. intros H. apply Qeq_bool_iff in H. revert H.
    apply Qabs_case; intros _ H.
    + exists (int_cast s). lra.
    + exists (int_cast s + -1)%Z. rewrite inject_Z_plus.
      change (inject_Z (-1)) with (-1). lra.
  - intros [z E]. destruct (Z.le_gt_cases 0 z) as [Hz|Hz].
    + apply (half_is_fraction s z); [now left|]. now apply int_cast_half_pos.
    + apply (half_is_fraction s (z + 1)).
      * right. rewrite inject_Z_plus. change (inject_Z 1) with 1. lra.
      * replace (z + 1)%Z with (- (- z - 1))%Z by lia.
        apply int_cast_half_neg; [lia|].
        unfold Z.sub. rewrite inject_Z_plus, !inject_Z_opp.
        change (inject_Z 1) with 1. lra.
Qed.

(** ** The position as a sum of signals *)

Lemma int_cast_zero (s : Q) : Qeq_bool s 0 = true -> int_cast s = 0%Z.
Proof. intros H. apply Qeq_bool_iff in H. now rewrite (int_cast_comp s 0 H). Qed.

Lemma bar_whole_signal inp ii st st' :
  fraction (rd (sigIn inp) ii) = false -> bar inp ii st = Done st' ->
  openPosition st' = (openPosition st + int_cast (rd (sigIn inp) ii))%Z.
Proof.
  intros Hf. unfold bar, act.
  destruct (Qeq_bool (rd (sigIn inp) ii) 0) eqn:Hz; simpl.
  - intros [= <-]. destruct (mark_bar_ledger inp ii st) as (_ & -> & _).
    rewrite (int_cast_zero _ Hz). lia.
  - unfold advanced. rewrite Hf. simpl. unfold integer.
    destruct (branch_of (openPosition st) (rd (sigIn inp) ii)).
    + simpl. intros [= <-].
      now destruct (mark_bar_ledger inp ii
        {| openLedger := openLedger st ++
             [createLineEntry (Z.of_nat ii) (int_cast (rd (sigIn inp) ii))
                (rd (dataIn inp) (ii + 1))];
           openPosition := openPosition st + int_cast (rd (sigIn inp) ii);
           cashIdx := cashIdx st; openEQIdx := openEQIdx st |}) as (_ & -> & _).
    + simpl. intros [= <-].
      match goal with |- openPosition (mark_bar _ _ ?x) = _ =>
        destruct (mark_bar_ledger inp ii x) as (_ & -> & _) end.
      simpl. lia.
    + destruct (reduce _ _ _ _ _ _) as [[ledger' c]|]; simpl; [|discriminate].
      intros [= <-].
      match goal with |- openPosition (mark_bar _ _ ?x) = _ =>
        destruct (mark_bar_ledger inp ii x) as (_ & -> & _) end.
      simpl. now apply int_cast_add_whole.
Qed.

Lemma at_bar_after inp sigIdx ii st : at_bar inp sigIdx ii st -> (sigIdx < ii)%nat.
Proof. induction 1; lia. Qed.

Lemma signal_total_snoc inp a n :
  signal_total inp a (S n) = (signal_total inp a n + int_cast (rd (sigIn inp) (a + n)))%Z.
Proof.
  unfold signal_total. rewrite seq_S, foldr_app. simpl.
  generalize (seq a n) as l. induction l as [|j l IH]; simpl; [lia|]. rewrite IH. lia.
Qed.

Lemma position_total inp sigIdx ii st :
  at_bar inp sigIdx ii st ->
  (forall j, (sigIdx < j < ii)%nat -> fraction (rd (sigIn inp) j) = false) ->
  openPosition st = signal_total inp sigIdx (ii - sigIdx).
Proof.
  induction 1 as [|ii st st' Hat IH Hlt Hb]; intros Hw.
  - replace (sigIdx + 1 - sigIdx)%nat with 1%nat by lia.
    unfold signal_total. simpl. lia.
  - pose proof (at_bar_after _ _ _ _ Hat) as Hgt.
    replace (S ii - sigIdx)%nat with (S (ii - sigIdx)) by lia.
    rewrite signal_total_snoc. replace (sigIdx + (ii - sigIdx))%nat with ii by lia.
    rewrite <- IH by (intros j Hj; apply Hw; lia).
    apply bar_whole_signal; [apply Hw; lia | exact Hb].
Qed.

(** On a run within the range of int, as long as the signals after the first
    trade are whole numbers, the position the loop carries is the sum of the
    integer parts of the signals from the bar of the first trade on, and that
    partial sum is an int. *)
Theorem position_is_signal_total inp sigIdx ii st :
  run_within_int inp sigIdx ->
  at_bar inp sigIdx ii st ->
  (forall j, (sigIdx < j < ii)%nat -> fraction (rd (sigIn inp) j) = false) ->
  openPosition st = signal_total inp sigIdx (ii - sigIdx) /\
  int_range (signal_total inp sigIdx (ii - sigIdx)).
Proof.
  intros (_ & _ & Hint) Hat Hw. pose proof (position_total inp sigIdx ii st Hat Hw) as E.
  split; [exact E|]. rewrite <- E. apply (Hint ii st Hat).
Qed.

(** ** Close-out *)

Lemma insert_rd_same (l : list Q) i : <[i := rd l i]> l = l.
Proof.
  unfold rd. destruct (l !! i) as [x|] eqn:E; simpl.
  - now apply list_insert_id.
  - apply list_insert_ge. now apply lookup_ge_None_1.
Qed.

Lemma close_out_bar inp ii st :
  rd (sigIn inp) ii == 1 # 2 \/ rd (sigIn inp) ii == - (1 # 2) ->
  bar inp ii st = Done (closed_out inp ii st).
Proof.
  set (s := rd (sigIn inp) ii). intros E.
  assert (~ 1 <= s /\ ~ s <= -1) as [N1 N2] by (destruct E; split; lra).
  assert (fraction s = true /\ knownAdvSig s = true) as [Hf Hk].
  { apply (half_is_fraction s 0).
    - change (inject_Z 0) with 0. destruct E; [left|right]; lra.
    - now apply int_cast_small. }
  assert (forall pos, additive pos s = false) as Ha.
  { intros pos. unfold additive.
    assert (Qle_bool s (-1) = false) as -> by (apply not_true_iff_false; now rewrite Qle_bool_iff).
    assert (Qle_bool 1 s = false) as -> by (apply not_true_iff_false; now rewrite Qle_bool_iff).
    now rewrite !andb_false_r. }
  assert (int_cast (Qabs s) = 0%Z) as Habs.
  { apply int_cast_small; revert N1 N2; apply Qabs_case; intros; lra. }
  unfold bar, act. fold s. rewrite (fraction_nonzero s Hf). simpl.
  unfold advanced. rewrite Hf, Hk, Ha.
  unfold knownAdvSig in Hk. cbv zeta in Hk. rewrite Hk. simpl.
  unfold integer, branch_of. cbn [openPosition]. rewrite Ha, Habs. simpl.
  rewrite (int_cast_small s N1 N2). simpl. rewrite insert_rd_same.
  unfold mark_bar. simpl. reflexivity.
Qed.

Lemma closed_out_cash inp ii st :
  (ii + 1 < length (cashIdx st))%nat ->
  rd (cashIdx (closed_out inp ii st)) (ii + 1) ==
  rd (cashIdx st) (ii + 1)
  + liquidation_value (rd (dataIn inp) (ii + 1)) (BIG_POINT inp) (COST inp) (openLedger st).
Proof.
  intros Hlen. unfold closed_out. simpl. rewrite rd_insert_eq by exact Hlen.
  apply liquidate_realized.
Qed.

(** A signal of +0.5 or -0.5 closes out whatever is held, long or short: the
    ledger is empty and the position flat, no open equity is written for that
    bar, and the cash of the next row grows by the liquidation value of the
    ledger: for every lot its price move times its signed quantity times the
    big point, less the commission on every unit. *)
Theorem half_closes_out inp ii st :
  rd (sigIn inp) ii == 1 # 2 \/ rd (sigIn inp) ii == - (1 # 2) ->
  bar inp ii st = Done (closed_out inp ii st) /\
  ((ii + 1 < length (cashIdx st))%nat ->
   rd (cashIdx (closed_out inp ii st)) (ii + 1) ==
   rd (cashIdx st) (ii + 1)
   + liquidation_value (rd (dataIn inp) (ii + 1)) (BIG_POINT inp) (COST inp) (openLedger st)).
Proof.
  intros E. split; [now apply close_out_bar | apply closed_out_cash].
Qed.

(** With nothing held, a signal of +0.5 or -0.5 is not an error and changes
    nothing. *)
Theorem half_on_flat_is_noop inp ii st :
  openLedger st = [] -> openPosition st = 0%Z ->
  rd (sigIn inp) ii == 1 # 2 \/ rd (sigIn inp) ii == - (1 # 2) ->
  bar inp ii st = Done st.
Proof.
  intros Hl Hp E. rewrite (close_out_bar inp ii st E). f_equal.
  unfold closed_out. rewrite Hl. simpl. rewrite insert_rd_same.
  destruct st; simpl in *; subst; reflexivity.
Qed.

(** ** The order of the lots *)

Lemma in_order_snoc (l : list tradeEntry) (x : tradeEntry) :
  StronglySorted (fun e1 e2 => (index e1 < index e2)%Z) l ->
  Forall (fun e => (index e < index x)%Z) l ->
  StronglySorted (fun e1 e2 => (index e1 < index e2)%Z) (l ++ [x]).
Proof.
  induction l as [|e l IH]; intros Hs Hf; simpl.
  - repeat constructor.
  - apply StronglySorted_inv in Hs. destruct Hs as [Hs He].
    inversion Hf as [|? ? Hx Hl]; subst. constructor.
    + now apply IH.
    + apply Forall_app. split; [exact He|]. now repeat constructor.
Qed.

Lemma reduce_in_order exec BP C ii ledger : forall needQty c ledger' c',
  opened_in_order ii ledger ->
  reduce exec BP C ledger needQty c = Some (ledger', c') ->
  opened_in_order ii ledger'.
Proof.
  induction ledger as [|e rest IH]; intros needQty c ledger' c' [Hs Hb]; simpl.
  - destruct (needQty =? 0)%Z; [|discriminate]. intros [= <- <-]. now split.
  - destruct (needQty =? 0)%Z; [intros [= <- <-]; now split|].
    apply StronglySorted_inv in Hs. destruct Hs as [Hs He].
    inversion Hb as [|? ? Hx Hl]; subst.
    destruct (Z.abs (quantity e) >? needQty)%Z.
    + intros [= <- <-]. split; constructor; assumption.
    + apply IH. now split.
Qed.

Lemma act_in_order inp ii st st' :
  opened_in_order ii (openLedger st) -> act inp ii st = Done st' ->
  opened_in_order (S ii) (openLedger st').
Proof.
  intros Ho.
  assert (forall l, opened_in_order ii l -> opened_in_order (S ii) l) as Up.
  { intros l [Hs Hb]. split; [exact Hs|].
    eapply Forall_impl; [exact Hb|]. simpl. intros. lia. }
  assert (forall q p, opened_in_order (S ii) [createLineEntry (Z.of_nat ii) q p]) as One.
  { intros q p. split; repeat constructor. simpl. lia. }
  assert (opened_in_order (S ii) []) as Nil by (split; constructor).
  unfold act. destruct (Qeq_bool _ 0); simpl; [intros [= <-]; now apply Up|].
  destruct (advanced inp ii _ st) as [st1| |] eqn:A; simpl; try discriminate.
  assert (opened_in_order ii (openLedger st1)) as Ho1.
  { destruct (advanced_done _ _ _ _ _ A) as [[-> _]|(_ & _ & _ & ->)]; [exact Ho|].
    split; constructor. }
  unfold integer. destruct (branch_of _ _).
  - intros [= <-]. simpl. destruct Ho1 as [Hs Hb]. split.
    + apply in_order_snoc; [exact Hs|]. exact Hb.
    + apply Forall_app. split; [apply (Up _ (conj Hs Hb))|]. repeat constructor. simpl. lia.
  - intros [= <-]. simpl. destruct (_ =? 0)%Z; [exact Nil | apply One].
  - destruct (reduce _ _ _ _ _ _) as [[ledger' c]|] eqn:R; [|discriminate].
    intros [= <-]. simpl. apply Up. eapply reduce_in_order; eauto.
Qed.

(** The ledger is a FIFO queue: at every bar its lots stand in the order of
    the bars that opened them, each stamped with a different, earlier bar. *)
Theorem ledger_in_origin_order inp sigIdx ii st :
  at_bar inp sigIdx ii st -> opened_in_order ii (openLedger st).
Proof.
  induction 1 as [|ii st st' _ IH _ Hb].
  - simpl. split; repeat constructor. simpl. lia.
  - unfold bar in Hb. destruct (act inp ii st) as [st1| |] eqn:A; simpl in Hb; try discriminate.
    injection Hb as <-. destruct (mark_bar_ledger inp ii st1) as (-> & _).
    eapply act_in_order; eauto.
Qed.

(** ** Covering a short position *)

(** On a ledger of short lots, a buy smaller than the position takes whole
    lots from the front as long as they fit in what is still needed, then
    shrinks the next lot by the rest (or leaves it alone if nothing is left);
    the lots behind it are not touched. *)
Theorem short_cover_is_fifo exec BP C ledger : forall needQty c,
  all_short ledger -> (0 < needQty < - sumQty ledger)%Z ->
  exists removed e rest c',
    ledger = removed ++ e :: rest /\
    (0 <= needQty + sumQty removed < - quantity e)%Z /\
    Forall (fun lot => (- quantity lot <= needQty)%Z) removed /\
    reduce exec BP C ledger needQty c =
      Some ((if (needQty + sumQty removed =? 0)%Z then e
             else createLineEntry (index e) (quantity e + (needQty + sumQty removed))
                    (price e)) :: rest, c').
Proof.
  induction ledger as [|e0 rest0 IH]; intros needQty c Hs Hn.
  - unfold sumQty in Hn. simpl in Hn. lia.
  - rewrite sumQty_cons in Hn. inversion Hs as [|? ? He Hrest]; subst. simpl.
    destruct (Z.eqb_spec needQty 0); [lia|].
    destruct (Z.gtb_spec (Z.abs (quantity e0)) needQty) as [Hgt|Hle].
    + exists [], e0, rest0. eexists. change (sumQty []) with 0%Z. rewrite Z.add_0_r.
      destruct (Z.eqb_spec needQty 0); [lia|].
      repeat split; try lia. constructor.
    + destruct (Z.eq_dec (needQty + quantity e0)%Z 0%Z) as [E0|E0].
      * destruct rest0 as [|e1 rest1]; [unfold sumQty in Hn; simpl in Hn; lia|].
        exists [e0], e1, rest1. eexists.
        assert (sumQty [e0] = quantity e0) as -> by (unfold sumQty; simpl; lia).
        rewrite E0. simpl. inversion Hrest; subst.
        repeat split; try lia. repeat constructor. lia.
      * destruct (IH (needQty + quantity e0)%Z (remove_cash exec BP C e0 c) Hrest)
          as (removed & e & rest & c' & -> & Hb & Hf & R); [lia|].
        exists (e0 :: removed), e, rest, c'. rewrite sumQty_cons.
        replace (needQty + (quantity e0 + sumQty removed))%Z
          with (needQty + quantity e0 + sumQty removed)%Z by lia.
        repeat split; try lia.
        -- constructor; [lia|]. eapply Forall_impl; [exact Hf|]. simpl. intros. lia.
        -- exact R.
Qed.

(** ** Commission *)

Lemma reduce_commission exec BP C ledger : forall needQty c c0 d ledger' c',
  all_short ledger -> (0 <= needQty < - sumQty ledger)%Z ->
  c == c0 - d ->
  reduce exec BP C ledger needQty c = Some (ledger', c') ->
  exists c0', reduce exec BP 0 ledger needQty c0 = Some (ledger', c0') /\
              c' == c0' - d - inject_Z needQty * C.
Proof.
  induction ledger as [|e rest IH]; intros needQty c c0 d ledger' c' Hs Hn Hc.
  - unfold sumQty in Hn. simpl in Hn. lia.
  - rewrite sumQty_cons in Hn. inversion Hs as [|? ? He Hrest]; subst. simpl.
    destruct (Z.eqb_spec needQty 0) as [->|Hne].
    { intros [= <- <-]. eexists. split; [reflexivity|]. rewrite Hc.
      change (inject_Z 0) with 0. ring. }
    destruct (Z.gtb_spec (Z.abs (quantity e)) needQty) as [Hgt|Hle].
    + intros [= <- <-]. eexists. split; [reflexivity|].
      unfold shrink_cash. rewrite Hc, Z.abs_eq by lia. ring.
    + intros R.
      destruct (IH (needQty + quantity e)%Z (remove_cash exec BP C e c)
                  (remove_cash exec BP 0 e c0) (d + inject_Z (Z.abs (quantity e)) * C)
                  ledger' c' Hrest) as (c0' & R0 & E); [lia| |exact R|].
      * unfold remove_cash. rewrite Hc. ring.
      * exists c0'. split; [exact R0|]. rewrite E, inject_Z_plus.
        rewrite Z.abs_neq by lia. rewrite inject_Z_opp. ring.
Qed.

(** Covering part of a short position costs the per-unit commission once
    for every unit bought, however many lots the buy runs through: the cash
    booked is the cash booked at no commission, less [needQty * COST]. *)
Theorem short_cover_commission exec BP C ledger needQty c ledger' c' :
  all_short ledger -> (0 <= needQty < - sumQty ledger)%Z ->
  reduce exec BP C ledger needQty c = Some (ledger', c') ->
  exists c0, reduce exec BP 0 ledger needQty c = Some (ledger', c0) /\
             c' == c0 - inject_Z needQty * C.
Proof.
  intros Hs Hn R.
  destruct (reduce_commission exec BP C ledger needQty c c 0 ledger' c' Hs Hn)
    as (c0 & R0 & E); [ring | exact R |].
  exists c0. split; [exact R0|]. rewrite E. ring.
Qed.

(** ** Execution lags the signal by one bar *)

Lemma act_cash_rows inp ii st st' :
  act inp ii st = Done st' ->
  forall j, j <> (ii + 1)%nat -> rd (cashIdx st') j = rd (cashIdx st) j.
Proof.
  unfold act. destruct (Qeq_bool _ 0); simpl; [intros [= <-]; reflexivity|].
  destruct (advanced inp ii _ st) as [st1| |] eqn:A; simpl; try discriminate.
  intros H j Hj.
  assert (rd (cashIdx st1) j = rd (cashIdx st) j) as <-.
  { destruct (advanced_done _ _ _ _ _ A) as [[-> _]|(_ & _ & _ & ->)]; [reflexivity|].
    simpl. apply rd_insert_ne. lia. }
  revert H. unfold integer. destruct (branch_of _ _).
  - intros [= <-]. reflexivity.
  - intros [= <-]. simpl. apply rd_insert_ne. lia.
  - destruct (reduce _ _ _ _ _ _) as [[? ?]|]; [|discriminate].
    intros [= <-]. simpl. apply rd_insert_ne. lia.
Qed.

(** Bar [ii] books into row [ii+1] only: every other row of the cash and of
    the open equity is as it was before the bar. *)
Theorem bar_writes_next_row inp ii st st' (j : nat) :
  bar inp ii st = Done st' -> j <> (ii + 1)%nat ->
  rd (cashIdx st') j = rd (cashIdx st) j /\ rd (openEQIdx st') j = rd (openEQIdx st) j.
Proof.
  intros Hb Hj. split; [|now apply (bar_openEQ _ _ _ _ Hb)].
  unfold bar in Hb. destruct (act inp ii st) as [st1| |] eqn:A; simpl in Hb; try discriminate.
  injection Hb as <-. destruct (mark_bar_ledger inp ii st1) as (_ & _ & ->).
  now apply (act_cash_rows _ _ _ _ A).
Qed.

Lemma at_bar_untouched inp sigIdx ii st :
  at_bar inp sigIdx ii st ->
  forall j, (j <= sigIdx + 1)%nat -> rd (cashIdx st) j = 0 /\ rd (openEQIdx st) j = 0.
Proof.
  induction 1 as [|ii st st' Hat IH _ Hb]; intros j Hj.
  - simpl. now rewrite !rd_zeros.
  - pose proof (at_bar_after _ _ _ _ Hat). destruct (IH j Hj) as [Hc Ho].
    unfold bar in Hb. destruct (act inp ii st) as [st1| |] eqn:A; simpl in Hb; try discriminate.
    pose proof (bar_openEQ inp ii st (mark_bar inp ii st1)) as [_ He].
    { unfold bar. now rewrite A. }
    injection Hb as <-. destruct (mark_bar_ledger inp ii st1) as (_ & _ & ->).
    split; [rewrite <- Hc; apply (act_cash_rows _ _ _ _ A); lia
           | rewrite <- Ho; apply He; lia].
Qed.

Lemma running_sum_zero cash k :
  (forall i, (i <= k)%nat -> rd cash i = 0) -> running_sum cash k == 0.
Proof.
  unfold running_sum. intros H.
  assert (forall l r, Forall (fun i => (i <= k)%nat) l -> r == 0 ->
            fold_left (fun x j => x + rd cash j) l r == 0) as F.
  { induction l as [|j l IH]; intros r Hl Hr; simpl; [exact Hr|].
    inversion Hl; subst. apply IH; [assumption|]. rewrite H by assumption. rewrite Hr.
    reflexivity. }
  apply F; [|reflexivity]. apply Forall_forall. intros i Hi.
  apply list_elem_of_In, in_seq in Hi. lia.
Qed.

Lemma sums_rows rows cash openEQ k :
  (k < rows)%nat ->
  rd (fst (sums rows cash openEQ)) k = running_sum cash k + rd openEQ k /\
  (k = 0%nat -> rd (snd (sums rows cash openEQ)) k = 0) /\
  ((0 < k)%nat ->
   rd (snd (sums rows cash openEQ)) k
   = rd (fst (sums rows cash openEQ)) k - rd (fst (sums rows cash openEQ)) (k - 1)).
Proof.
  intros Hk. unfold sums.
  pose proof (sum_fold_spec cash openEQ rows 0 0 (zeros rows) (<[0%nat := 0]> (zeros rows))) as H.
  destruct (fold_left _ _ _) as [[r N] R]. simpl in *.
  destruct H as (_ & HR & HK).
  { rewrite length_insert. reflexivity. }
  { unfold zeros. rewrite length_replicate. lia. }
  destruct (HK k) as [E1 E2]; [lia|]. rewrite Nat.sub_0_r in E1.
  split; [exact E1|]. split; [|exact E2].
  intros ->. rewrite HR by auto. now rewrite insert_zeros, rd_zeros.
Qed.

Lemma rd_beyond (a : list Q) i : (length a <= i)%nat -> rd a i = 0.
Proof. intros H. unfold rd. now rewrite lookup_ge_None_2. Qed.

(** Nothing is booked up to the bar of the first trade: on the rows 0 to
    [sigIdx] all four series are 0, and the cash is still 0 on the row after,
    the one whose open the first trade is executed at. *)
Theorem nothing_before_first_trade inp out sigIdx (j : nat) :
  mexFunction inp = Done out -> scan (sigIn inp) 0 = (true, sigIdx) ->
  ((j <= sigIdx + 1)%nat -> rd (cash_OUT out) j = 0) /\
  ((j <= sigIdx)%nat ->
   rd (openEQ_OUT out) j = 0 /\ rd (netLiq_OUT out) j == 0 /\ rd (returns_OUT out) j == 0).
Proof.
  unfold mexFunction.
  destruct (negb (rowsData inp =? rowsSig inp)%nat); [discriminate|].
  destruct (1 <? colsSig inp)%nat; [discriminate|].
  destruct (negb (colsData inp =? 2)%nat && negb (colsData inp =? 4)%nat); [discriminate|].
  intros Hm Hs. rewrite Hs in Hm. simpl in Hm.
  destruct (Nat.ltb_spec sigIdx (rowsSig inp)) as [Hlt|Hge].
  2:{ injection Hm as <-. simpl. rewrite !rd_zeros. repeat split; reflexivity. }
  destruct (bars inp sigIdx) as [st| |] eqn:B; simpl in Hm; try discriminate.
  injection Hm as <-.
  pose proof (at_bar_untouched _ _ _ _ (bars_at_bar inp sigIdx st Hlt B)) as Hz.
  unfold bars in B. apply iterate_lengths in B. simpl in B.
  assert (length (zeros (rowsData inp)) = rowsData inp) as Lz by apply length_replicate.
  rewrite Lz in B. destruct B as [Lc Le].
  set (rows := rowsData inp) in *.
  assert (forall i, (i <= sigIdx)%nat -> rd (clean rows (cashIdx st) (openEQIdx st)) i = 0) as Hclean.
  { intros i Hi. destruct (clean_rows rows (cashIdx st) (openEQIdx st) i Le) as [Hin Hout].
    destruct (Nat.lt_ge_cases i 1); [rewrite Hout by lia; apply Hz; lia|].
    destruct (Nat.lt_ge_cases i (rows - 1)); [|rewrite Hout by lia; apply Hz; lia].
    rewrite Hin by lia. destruct (spike _ _ _); apply Hz; lia. }
  assert (forall i, (i <= sigIdx)%nat ->
            rd (fst (sums rows (cashIdx st) (clean rows (cashIdx st) (openEQIdx st)))) i == 0)
    as Hnet.
  { intros i Hi. destruct (Nat.lt_ge_cases i rows) as [Hr|Hr].
    - destruct (sums_rows rows (cashIdx st) (clean rows (cashIdx st) (openEQIdx st)) i Hr)
        as (-> & _). rewrite Hclean by lia. rewrite running_sum_zero; [reflexivity|].
      intros k Hk. apply Hz. lia.
    - rewrite rd_beyond; [reflexivity|].
      destruct (sums_lengths rows (cashIdx st) (clean rows (cashIdx st) (openEQIdx st)))
        as [-> _]. exact Hr. }
  unfold finish. fold rows.
  pose proof (sums_rows rows (cashIdx st) (clean rows (cashIdx st) (openEQIdx st)) j) as Hrow.
  pose proof (sums_lengths rows (cashIdx st) (clean rows (cashIdx st) (openEQIdx st))) as [_ Lr].
  pose proof (Hnet j) as Hj. pose proof (Hnet (j - 1)%nat) as Hj1.
  destruct (sums rows (cashIdx st) (clean rows (cashIdx st) (openEQIdx st))) as [netLiq returns].
  simpl in *. split.
  - intros Hle. apply Hz. exact Hle.
  - intros Hle. split; [now apply Hclean|]. split; [now apply Hj|].
    destruct (Nat.lt_ge_cases j rows) as [Hr|Hr]; [|rewrite rd_beyond by lia; reflexivity].
    destruct (Hrow Hr) as (_ & H0 & Hpos).
    destruct (Nat.eq_dec j 0%nat) as [->|Hne]; [rewrite H0 by reflexivity; reflexivity|].
    rewrite Hpos by lia. rewrite Hj, Hj1 by lia. reflexivity.
Qed.

(** ** What a call reads *)

(** A bar reads its own signal, two prices of the next row and the two
    scalars, and nothing else of the input. *)
Lemma bar_ext inp1 inp2 ii st :
  rd (sigIn inp1) ii = rd (sigIn inp2) ii ->
  rd (dataIn inp1) (ii + 1) = rd (dataIn inp2) (ii + 1) ->
  rd (dataIn inp1) (ii + 1 + SHIFT_CLOSE inp1) = rd (dataIn inp2) (ii + 1 + SHIFT_CLOSE inp2) ->
  BIG_POINT inp1 = BIG_POINT inp2 -> COST inp1 = COST inp2 ->
  bar inp1 ii st = bar inp2 ii st.
Proof.
  intros Hs Hd Hc Hb Hk.
  assert (act inp1 ii st = act inp2 ii st) as Ha.
  { unfold act, advanced, integer. now rewrite Hs, Hd, Hb, Hk. }
  unfold bar. rewrite Ha. destruct (act inp2 ii st); simpl; try reflexivity.
  unfold mark_bar. now rewrite Hc, Hb.
Qed.

Lemma iterate_ext inp1 inp2 n : forall ii st,
  (forall j st', (ii <= j < ii + n)%nat -> bar inp1 j st' = bar inp2 j st') ->
  iterate inp1 n ii st = iterate inp2 n ii st.
Proof.
  induction n as [|n IH]; intros ii st H; simpl; [reflexivity|].
  rewrite H by lia. destruct (bar inp2 ii st); simpl; try reflexivity.
  apply IH. intros j st' Hj. apply H. lia.
Qed.

Lemma rd_app_l (l1 l2 : list Q) i : (i < length l1)%nat -> rd (l1 ++ l2) i = rd l1 i.
Proof. intros H. unfold rd. now rewrite lookup_app_l. Qed.

Lemma rd_app_r (l1 l2 : list Q) i : rd (l1 ++ l2) (length l1 + i) = rd l2 i.
Proof.
  unfold rd. rewrite lookup_app_r by lia. now replace (length l1 + i - length l1)%nat with i by lia.
Qed.

Lemma scan_app_found pre l : forall k0 k,
  scan pre k0 = (true, k) -> scan (pre ++ l) k0 = (true, k).
Proof.
  induction pre as [|s pre IH]; intros k0 k; simpl; [discriminate|].
  destruct (Qle_bool 1 (Qabs s)); [auto | apply IH].
Qed.

Lemma scan_app_none pre l : forall k0 k,
  scan pre k0 = (false, k) -> scan (pre ++ l) k0 = scan l (k0 + length pre)%nat.
Proof.
  induction pre as [|s pre IH]; intros k0 k; simpl.
  - intros _. now rewrite Nat.add_0_r.
  - destruct (Qle_bool 1 (Qabs s)); [discriminate|]. intros H.
    rewrite (IH _ _ H). f_equal. lia.
Qed.

(** With no trade before the final bar, the call returns zeros whatever the
    final signal is. *)
Lemma no_trade_before_last inp pre x k :
  valid_shape inp -> sigIn inp = pre ++ [x] -> scan pre 0 = (false, k) ->
  mexFunction inp = Done (all_zeros inp).
Proof.
  intros Hv Hsig Hpre. rewrite (mexFunction_shape inp Hv).
  destruct Hv as (_ & _ & _ & Hl & _). rewrite Hsig in *.
  rewrite length_app in Hl. simpl in Hl.
  rewrite (scan_app_none pre [x] 0 k Hpre). simpl.
  destruct (Qle_bool 1 (Qabs x)); simpl; [|reflexivity].
  destruct (Nat.ltb_spec (length pre) (rowsSig inp)); [|reflexivity].
  unfold bars. replace (rowsSig inp - 1 - (length pre + 1))%nat with 0%nat by lia.
  simpl. now rewrite finish_seed.
Qed.

(** The signal of the final bar is never acted on: replacing it by any other
    value leaves the outcome of the call as it is. *)
Theorem final_signal_is_ignored inp pre (a b : Q) :
  valid_shape inp -> sigIn inp = pre ++ [a] ->
  mexFunction (with_signals inp (pre ++ [b])) = mexFunction inp.
Proof.
  intros Hv Hsig.
  assert (valid_shape (with_signals inp (pre ++ [b]))) as Hv'.
  { destruct Hv as (H1 & H2 & H3 & H4 & H5). repeat split; try assumption.
    simpl. rewrite <- H4, Hsig, !length_app. reflexivity. }
  destruct (scan pre 0) as [[|] k] eqn:Hpre.
  2:{ rewrite (no_trade_before_last inp pre a k Hv Hsig Hpre).
      now rewrite (no_trade_before_last _ pre b k Hv' eq_refl Hpre). }
  rewrite (mexFunction_trades inp k Hv) by (rewrite Hsig; now apply scan_app_found).
  rewrite (mexFunction_trades _ k Hv') by (now apply scan_app_found).
  destruct (scan_found _ _ _ Hpre) as (Hk & _). simpl in Hk.
  destruct Hv as (_ & _ & _ & Hl & _). rewrite Hsig, length_app in Hl. simpl in Hl.
  assert (forall j, (j < length pre)%nat ->
            rd (sigIn (with_signals inp (pre ++ [b]))) j = rd (sigIn inp) j) as Hrd.
  { intros j Hj. simpl. rewrite Hsig. now rewrite !rd_app_l. }
  assert (bars (with_signals inp (pre ++ [b])) k = bars inp k) as ->.
  { unfold bars. simpl rowsSig.
    assert (seed (with_signals inp (pre ++ [b])) k = seed inp k) as ->.
    { unfold seed. now rewrite Hrd by lia. }
    apply iterate_ext. intros j st' Hj. apply bar_ext; try reflexivity.
    apply Hrd. lia. }
  reflexivity.
Qed.

(** The four-column form gives the outcome of the two-column form of its first
    and fourth columns: the outcome does not depend on the second and third
    columns. *)
Theorem wide_is_narrow_of_first_and_fourth (c0 c1 c2 c3 sig : list Q) (bigPoint cost : Q) :
  length c1 = length c0 -> length c2 = length c0 -> length c3 = length c0 ->
  length sig = length c0 ->
  mexFunction (wide c0 c1 c2 c3 sig bigPoint cost)
  = mexFunction (narrow c0 c3 sig bigPoint cost).
Proof.
  intros L1 L2 L3 Ls.
  assert (valid_shape (wide c0 c1 c2 c3 sig bigPoint cost)) as Vw.
  { unfold valid_shape. simpl. rewrite !length_app. repeat split; auto; lia. }
  assert (valid_shape (narrow c0 c3 sig bigPoint cost)) as Vn.
  { unfold valid_shape. simpl. rewrite !length_app. repeat split; auto; lia. }
  rewrite (mexFunction_shape _ Vw), (mexFunction_shape _ Vn).
  change (sigIn (wide c0 c1 c2 c3 sig bigPoint cost)) with sig.
  change (sigIn (narrow c0 c3 sig bigPoint cost)) with sig.
  change (rowsSig (wide c0 c1 c2 c3 sig bigPoint cost)) with (length sig).
  change (rowsSig (narrow c0 c3 sig bigPoint cost)) with (length sig).
  destruct (scan sig 0) as [[|] k] eqn:Hs; simpl; [|reflexivity].
  destruct (scan_found _ _ _ Hs) as (Hk & _). simpl in Hk.
  destruct (Nat.ltb_spec k (length sig)); [|lia].
  destruct (Nat.eq_dec (k + 1)%nat (length sig)) as [Hlast|Hin].
  - unfold bars. simpl rowsSig.
    replace (length sig - 1 - (k + 1))%nat with 0%nat by lia. simpl.
    now rewrite !finish_seed.
  - assert (bars (wide c0 c1 c2 c3 sig bigPoint cost) k
            = bars (narrow c0 c3 sig bigPoint cost) k) as ->.
    { unfold bars. simpl rowsSig.
      assert (seed (wide c0 c1 c2 c3 sig bigPoint cost) k
              = seed (narrow c0 c3 sig bigPoint cost) k) as ->.
      { unfold seed. simpl. now rewrite !rd_app_l by lia. }
      apply iterate_ext. intros j st' Hj. apply bar_ext; try reflexivity.
      - simpl. now rewrite !rd_app_l by lia.
      - unfold SHIFT_CLOSE, shifter. simpl.
        replace (j + 1 + length c0 * 3)%nat
          with (length c0 + (length c1 + (length c2 + (j + 1))))%nat by lia.
        replace (j + 1 + length c0 * 1)%nat with (length c0 + (j + 1))%nat by lia.
        now rewrite !rd_app_r. }
    destruct (bars (narrow c0 c3 sig bigPoint cost) k); reflexivity.
Qed.

(** ** With and without the fractional convention *)

Lemma whole_signal (s : Q) (z : Z) :
  s == inject_Z z -> fraction s = false /\ int_cast s = z.
Proof.
  intros E. assert (int_cast s = z) as Hz
    by (rewrite (int_cast_comp s (inject_Z z) E); apply int_cast_inject).
  split; [|exact Hz]. unfold fraction. rewrite Hz.
  apply negb_false_iff. now apply Qeq_bool_iff.
Qed.

Lemma additive_false (pos : Z) (s : Q) :
  ((pos < 0)%Z /\ ~ s <= -1) \/ ((0 < pos)%Z /\ ~ 1 <= s) -> additive pos s = false.
Proof.
  unfold additive. intros [[Hp Hs]|[Hp Hs]].
  - destruct (Z.geb_spec pos 0); [lia|]. rewrite andb_false_l, orb_false_r.
    apply andb_false_iff. right. apply not_true_iff_false. now rewrite Qle_bool_iff.
  - destruct (Z.leb_spec pos 0); [lia|]. rewrite andb_false_l, orb_false_l.
    apply andb_false_iff. right. apply not_true_iff_false. now rewrite Qle_bool_iff.
Qed.

(** A whole signal against the position and at least as large: the full
    liquidation, with the remainder as the new position. *)
Lemma full_liquidation_bar inp ii st (z : Z) :
  rd (sigIn inp) ii == inject_Z z ->
  ((openPosition st < 0)%Z /\ (- openPosition st <= z)%Z) \/
  ((0 < openPosition st)%Z /\ (z <= - openPosition st)%Z) ->
  act inp ii st =
    Done {| openLedger :=
              if (z + openPosition st =? 0)%Z then []
              else [createLineEntry (Z.of_nat ii) (z + openPosition st)
                      (rd (dataIn inp) (ii + 1))];
            openPosition := z + openPosition st;
            cashIdx := <[(ii + 1)%nat :=
                         liquidate (rd (dataIn inp) (ii + 1)) (BIG_POINT inp) (COST inp)
                           (openLedger st) (rd (cashIdx st) (ii + 1))]> (cashIdx st);
            openEQIdx := openEQIdx st |}.
Proof.
  set (s := rd (sigIn inp) ii). intros E Hz.
  destruct (whole_signal s z E) as [Hf Hi].
  assert (inject_Z 1 <= inject_Z z \/ inject_Z z <= inject_Z (-1)) as Hq
    by (rewrite <- !Zle_Qle; lia).
  change (inject_Z 1) with 1 in Hq. change (inject_Z (-1)) with (-1) in Hq.
  assert (Qeq_bool s 0 = false) as Hnz.
  { apply not_true_iff_false. rewrite Qeq_bool_iff. lra. }
  assert (additive (openPosition st) s = false) as Ha.
  { apply additive_false. destruct Hz as [[Hp Hz]|[Hp Hz]]; [left|right]; split; try lia.
    - assert (inject_Z 1 <= inject_Z z) as X by (rewrite <- Zle_Qle; lia).
      change (inject_Z 1) with 1 in X. lra.
    - assert (inject_Z z <= inject_Z (-1)) as X by (rewrite <- Zle_Qle; lia).
      change (inject_Z (-1)) with (-1) in X. lra. }
  unfold act. fold s. rewrite Hnz. simpl. unfold advanced. rewrite Hf. simpl.
  unfold integer, branch_of. rewrite Ha, (whole_abs s z E), Hi.
  destruct (Z.geb_spec (Z.abs z) (Z.abs (openPosition st))); [reflexivity | lia].
Qed.

Lemma flipped_cash inp ii st qty :
  (ii + 1 < length (cashIdx st))%nat ->
  rd (cashIdx (flipped inp ii st qty)) (ii + 1) ==
  rd (cashIdx st) (ii + 1)
  + liquidation_value (rd (dataIn inp) (ii + 1)) (BIG_POINT inp) (COST inp) (openLedger st).
Proof.
  intros Hlen. unfold flipped.
  match goal with |- rd (cashIdx (mark_bar _ _ ?x)) _ == _ =>
    destruct (mark_bar_ledger inp ii x) as (_ & _ & ->) end.
  simpl. rewrite rd_insert_eq by exact Hlen. apply liquidate_realized.
Qed.

(** The header's examples, within the range of int (the signal converts to
    an int, X is at most INT_MAX, the position and the lots are ints):
    against a short position, the plain signal [X - NET] and the fractional
    signal [X.5] are one and the same flip to [+X]; against a long position,
    so are [-X - NET] and [-X.5], to [-X].  Either way the cash of the next
    row grows by the liquidation value of the ledger. *)
Theorem flip_with_and_without_fraction inp ii st (X : Z) :
  (1 <= X <= INT_MAX)%Z -> signal_in_int (rd (sigIn inp) ii) -> state_in_int st ->
  ((ii + 1 < length (cashIdx st))%nat ->
   forall qty,
     rd (cashIdx (flipped inp ii st qty)) (ii + 1) ==
     rd (cashIdx st) (ii + 1)
     + liquidation_value (rd (dataIn inp) (ii + 1)) (BIG_POINT inp) (COST inp)
         (openLedger st)) /\
  ((openPosition st < 0)%Z ->
   rd (sigIn inp) ii == inject_Z X + (1 # 2) \/
   rd (sigIn inp) ii == inject_Z (X - openPosition st) ->
   bar inp ii st = Done (flipped inp ii st X)) /\
  ((0 < openPosition st)%Z ->
   rd (sigIn inp) ii == - (inject_Z X + (1 # 2)) \/
   rd (sigIn inp) ii == inject_Z (- X - openPosition st) ->
   bar inp ii st = Done (flipped inp ii st (- X))).
Proof.
  intros [HX _] _ _. split; [intros Hlen qty; now apply flipped_cash|].
  assert (1 <= inject_Z X) as HXq by (change 1 with (inject_Z 1); now rewrite <- Zle_Qle).
  assert (forall k, let s := rd (sigIn inp) ii in
            s == inject_Z k + (1 # 2) \/ s == inject_Z k - (1 # 2) -> int_cast s = k ->
            additive (openPosition st) s = false -> additive 0 s = true ->
            bar inp ii st = Done (flipped inp ii st k)) as Half.
  { intros k s E Hk Ha Hb. destruct (half_is_fraction s k E Hk) as [Hf Hkn].
    unfold bar, act. fold s. rewrite (fraction_nonzero s Hf). simpl.
    unfold advanced. rewrite Hf, Hkn, Ha.
    unfold knownAdvSig in Hkn. cbv zeta in Hkn. rewrite Hkn. simpl.
    unfold integer, branch_of. cbn [openPosition]. rewrite Hb, Hk. reflexivity. }
  split; intros HP [E|E].
  - apply Half.
    + now left.
    + apply int_cast_half_pos; [lia | exact E].
    + apply additive_false. left. split; [exact HP | lra].
    + unfold additive. simpl. apply orb_true_iff. right. apply Qle_bool_iff. lra.
  - unfold bar. rewrite (full_liquidation_bar inp ii st _ E) by lia. simpl.
    replace (X - openPosition st + openPosition st)%Z with X by lia.
    destruct (Z.eqb_spec X 0); [lia | reflexivity].
  - apply Half.
    + right. rewrite inject_Z_opp. lra.
    + apply int_cast_half_neg; [lia | exact E].
    + apply additive_false. right. split; [exact HP | lra].
    + unfold additive. simpl. apply orb_true_iff. left. apply Qle_bool_iff. lra.
  - unfold bar. rewrite (full_liquidation_bar inp ii st _ E) by lia. simpl.
    replace (- X - openPosition st + openPosition st)%Z with (- X)%Z by lia.
    destruct (Z.eqb_spec (- X) 0); [lia | reflexivity].
Qed.

(** A whole signal that exactly offsets the position does what a signal of
    one half does: it closes out, leaving no remainder lot, and the cash of
    the next row grows by the liquidation value of the ledger. *)
Theorem exact_offset_closes_out inp ii st :
  openPosition st <> 0%Z ->
  rd (sigIn inp) ii == inject_Z (- openPosition st) ->
  bar inp ii st = Done (closed_out inp ii st) /\
  ((ii + 1 < length (cashIdx st))%nat ->
   rd (cashIdx (closed_out inp ii st)) (ii + 1) ==
   rd (cashIdx st) (ii + 1)
   + liquidation_value (rd (dataIn inp) (ii + 1)) (BIG_POINT inp) (COST inp) (openLedger st)).
Proof.
  intros Hp E. split; [|apply closed_out_cash].
  unfold bar. rewrite (full_liquidation_bar inp ii st _ E) by lia. simpl.
  replace (- openPosition st + openPosition st)%Z with 0%Z by lia. reflexivity.
Qed.

(** ** Adding to a position *)

(** Within the range of int (the signal converts to an int, the position
    before and after and the lots are ints): a trade on the side of the
    position (or opening one from flat) books no cash, not even commission: it
    only appends one lot, entered at the next open, at the back of the
    ledger.  A half on such a signal is ignored. *)
Theorem additive_trade_books_no_cash inp ii st :
  signal_in_int (rd (sigIn inp) ii) -> state_in_int st ->
  int_range (openPosition st + int_cast (rd (sigIn inp) ii)) ->
  additive (openPosition st) (rd (sigIn inp) ii) = true ->
  invalid_signal (rd (sigIn inp) ii) = false ->
  exists st', bar inp ii st = Done st' /\
    cashIdx st' = cashIdx st /\
    openLedger st' = openLedger st ++
      [createLineEntry (Z.of_nat ii) (int_cast (rd (sigIn inp) ii)) (rd (dataIn inp) (ii + 1))] /\
    openPosition st' = (openPosition st + int_cast (rd (sigIn inp) ii))%Z.
Proof.
  set (s := rd (sigIn inp) ii). intros _ _ _ Ha Hv.
  assert (Qeq_bool s 0 = false) as Hnz.
  { apply not_true_iff_false. rewrite Qeq_bool_iff. intros Z0.
    unfold additive in Ha. apply orb_true_iff in Ha.
    destruct Ha as [Ha|Ha]; apply andb_true_iff in Ha; destruct Ha as [_ Ha];
      apply Qle_bool_iff in Ha; lra. }
  assert (advanced inp ii s st = Done st) as Hadv.
  { unfold advanced. unfold invalid_signal in Hv. destruct (fraction s); [|reflexivity].
    simpl in Hv. apply negb_false_iff in Hv. now rewrite Hv, Ha. }
  eexists. split.
  - unfold bar, act. fold s. rewrite Hnz. simpl. rewrite Hadv. simpl.
    unfold integer, branch_of. rewrite Ha. simpl. reflexivity.
  - match goal with |- cashIdx (mark_bar _ _ ?x) = _ /\ _ =>
      destruct (mark_bar_ledger inp ii x) as (-> & -> & ->) end.
    simpl. auto.
Qed.

(** ** Short and flat positions *)

(** On every run, while the position is short every lot on the ledger is
    short, and when the position is flat the ledger is empty. *)
Theorem short_side_discipline inp sigIdx ii st :
  scan (sigIn inp) 0 = (true, sigIdx) -> at_bar inp sigIdx ii st ->
  ((openPosition st < 0)%Z -> all_short (openLedger st)) /\
  (openPosition st = 0%Z -> openLedger st = []).
Proof.
  intros Hs Hat. destruct (scan_found _ _ _ Hs) as (_ & H1 & _).
  rewrite Nat.sub_0_r in H1.
  assert (ledger_ok st) as [Hc Hshort].
  { clear Hs. induction Hat as [|ii st st' _ IH _ Hb]; [now apply seed_ok|].
    eapply bar_ok; eauto. }
  split; [intros Hp; apply Hshort; lia|].
  intros Hp. specialize (Hshort ltac:(lia)). unfold conserved in Hc. rewrite Hp in Hc.
  destruct (openLedger st) as [|e rest]; [reflexivity|]. exfalso.
  rewrite sumQty_cons in Hc. inversion Hshort as [|? ? He Hr]; subst.
  assert (sumQty rest <= 0)%Z; [|lia].
  clear -Hr. induction rest as [|x rest IH]; [unfold sumQty; simpl; lia|].
  rewrite sumQty_cons. inversion Hr; subst. specialize (IH ltac:(assumption)). lia.
Qed.

(** ** The further properties at concrete inputs *)

Lemma short_two_lots_reaches_2 : at_bar short_two_lots 0 2 short_two_lots_at_2.
Proof.
  apply (at_next short_two_lots 0 1 (seed short_two_lots 0)).
  - apply at_seed.
  - simpl. lia.
  - vm_compute. reflexivity.
Defined.

Lemma call_succeeds_iff_witness :
  (exists out, mexFunction long_two_lots = Done out) <->
  (forall sigIdx j, scan (sigIn long_two_lots) 0 = (true, sigIdx) ->
     (sigIdx < j < rowsSig long_two_lots - 1)%nat ->
     invalid_signal (rd (sigIn long_two_lots) j) = false).
Proof.
  apply (call_succeeds_iff long_two_lots).
  - repeat split; auto.
  - intros sigIdx [= <-]. apply run_within_int_check. vm_compute. reflexivity.
Defined.

Lemma output_lengths_witness :
  length (cash_OUT long_two_lots_out) = 4%nat /\ length (openEQ_OUT long_two_lots_out) = 4%nat /\
  length (netLiq_OUT long_two_lots_out) = 4%nat /\ length (returns_OUT long_two_lots_out) = 4%nat.
Proof. apply (output_lengths long_two_lots long_two_lots_out). vm_compute. reflexivity. Defined.

Lemma net_liquidity_and_returns_witness :
  rd (netLiq_OUT long_two_lots_out) 3
    == running_sum (cash_OUT long_two_lots_out) 3 + rd (openEQ_OUT long_two_lots_out) 3 /\
  (3%nat = 0%nat -> rd (returns_OUT long_two_lots_out) 3 == 0) /\
  ((0 < 3)%nat ->
   rd (returns_OUT long_two_lots_out) 3
     == rd (netLiq_OUT long_two_lots_out) 3 - rd (netLiq_OUT long_two_lots_out) (3 - 1)).
Proof.
  apply (net_liquidity_and_returns long_two_lots long_two_lots_out 3).
  - vm_compute. reflexivity.
  - simpl. lia.
Defined.

Lemma normalization_rowwise_witness :
  ((1 <= 2 < 4 - 1)%nat ->
   rd (clean 4 [0; 0; 0; 4] [0; 0; 6; 0]) 2
   = if spike [0; 0; 0; 4] [0; 0; 6; 0] 2 then rd [0; 0; 0; 4] (2 + 1) else rd [0; 0; 6; 0] 2) /\
  ((2 < 1 \/ 4 - 1 <= 2)%nat -> rd (clean 4 [0; 0; 0; 4] [0; 0; 6; 0]) 2 = rd [0; 0; 6; 0] 2).
Proof. apply (normalization_rowwise 4 [0; 0; 0; 4] [0; 0; 6; 0] 2). reflexivity. Defined.

Lemma normalization_idempotent_witness :
  clean 4 [0; 0; 0; 4] (clean 4 [0; 0; 0; 4] [0; 0; 6; 0]) = clean 4 [0; 0; 0; 4] [0; 0; 6; 0].
Proof. apply (normalization_idempotent 4 [0; 0; 0; 4] [0; 0; 6; 0]). reflexivity. Defined.

Lemma position_is_signal_total_witness :
  openPosition short_two_lots_at_2 = signal_total short_two_lots 0 (2 - 0) /\
  int_range (signal_total short_two_lots 0 (2 - 0)).
Proof.
  apply (position_is_signal_total short_two_lots 0 2 short_two_lots_at_2).
  - apply run_within_int_check. vm_compute. reflexivity.
  - exact short_two_lots_reaches_2.
  - intros j Hj. assert (j = 1%nat) as -> by lia. reflexivity.
Defined.

Lemma half_closes_out_witness :
  bar short_then_half 1 (seed short_then_half 0)
  = Done (closed_out short_then_half 1 (seed short_then_half 0)) /\
  ((1 + 1 < length (cashIdx (seed short_then_half 0)))%nat ->
   rd (cashIdx (closed_out short_then_half 1 (seed short_then_half 0))) (1 + 1) ==
   rd (cashIdx (seed short_then_half 0)) (1 + 1)
   + liquidation_value (rd (dataIn short_then_half) (1 + 1)) (BIG_POINT short_then_half)
       (COST short_then_half) (openLedger (seed short_then_half 0))).
Proof.
  apply (half_closes_out short_then_half 1 (seed short_then_half 0)).
  left. vm_compute. reflexivity.
Defined.

Lemma half_on_flat_is_noop_witness :
  bar only_final_bar_signal 1 flat_of_three = Done flat_of_three.
Proof.
  apply (half_on_flat_is_noop only_final_bar_signal 1 flat_of_three).
  - reflexivity.
  - reflexivity.
  - left. vm_compute. reflexivity.
Defined.

Lemma ledger_in_origin_order_witness :
  opened_in_order 2 (openLedger short_two_lots_at_2).
Proof.
  apply (ledger_in_origin_order short_two_lots 0 2 short_two_lots_at_2).
  exact short_two_lots_reaches_2.
Defined.

Lemma short_cover_is_fifo_witness :
  exists removed e rest c',
    openLedger short_two_lots_at_2 = removed ++ e :: rest /\
    (0 <= 3 + sumQty removed < - quantity e)%Z /\
    Forall (fun lot => (- quantity lot <= 3)%Z) removed /\
    reduce 13 1 0 (openLedger short_two_lots_at_2) 3 0 =
      Some ((if (3 + sumQty removed =? 0)%Z then e
             else createLineEntry (index e) (quantity e + (3 + sumQty removed)) (price e))
            :: rest, c').
Proof.
  apply (short_cover_is_fifo 13 1 0 (openLedger short_two_lots_at_2) 3 0).
  - repeat constructor.
  - vm_compute. split; reflexivity.
Defined.

Lemma short_cover_commission_witness :
  exists c0, reduce 13 1 0 (openLedger short_two_lots_at_2) 3 0
             = Some ([createLineEntry 1 (-2) 12], c0) /\
             0 == c0 - inject_Z 3 * 1.
Proof.
  apply (short_cover_commission 13 1 1 (openLedger short_two_lots_at_2) 3 0).
  - repeat constructor.
  - vm_compute. split; [discriminate | reflexivity].
  - vm_compute. reflexivity.
Defined.

Lemma bar_writes_next_row_witness :
  rd (cashIdx short_two_lots_after_2) 2 = rd (cashIdx short_two_lots_at_2) 2 /\
  rd (openEQIdx short_two_lots_after_2) 2 = rd (openEQIdx short_two_lots_at_2) 2.
Proof.
  apply (bar_writes_next_row short_two_lots 2 short_two_lots_at_2 short_two_lots_after_2 2).
  - vm_compute. reflexivity.
  - simpl. lia.
Defined.

Lemma nothing_before_first_trade_witness :
  ((1 <= 0 + 1)%nat -> rd (cash_OUT long_two_lots_out) 1 = 0) /\
  ((1 <= 0)%nat ->
   rd (openEQ_OUT long_two_lots_out) 1 = 0 /\ rd (netLiq_OUT long_two_lots_out) 1 == 0 /\
   rd (returns_OUT long_two_lots_out) 1 == 0).
Proof.
  apply (nothing_before_first_trade long_two_lots long_two_lots_out 0 1).
  - vm_compute. reflexivity.
  - reflexivity.
Defined.

Lemma final_signal_is_ignored_witness :
  mexFunction (with_signals long_two_lots ([2; 3; -3] ++ [7])) = mexFunction long_two_lots.
Proof.
  apply (final_signal_is_ignored long_two_lots [2; 3; -3] 0 7).
  - repeat split; auto.
  - reflexivity.
Defined.

Lemma wide_is_narrow_of_first_and_fourth_witness :
  mexFunction (wide [10; 11; 12; 13] [1; 2; 3; 4] [5; 6; 7; 8] [10; 11; 14; 13] [2; 0; -2; 0] 1 0)
  = mexFunction (narrow [10; 11; 12; 13] [10; 11; 14; 13] [2; 0; -2; 0] 1 0).
Proof.
  apply (wide_is_narrow_of_first_and_fourth
           [10; 11; 12; 13] [1; 2; 3; 4] [5; 6; 7; 8] [10; 11; 14; 13] [2; 0; -2; 0] 1 0);
    reflexivity.
Defined.

Lemma flip_with_and_without_fraction_witness :
  bar short_then_reverse_long 1 (seed short_then_reverse_long 0)
    = Done (flipped short_then_reverse_long 1 (seed short_then_reverse_long 0) 1) /\
  bar short_then_plain_flip 1 (seed short_then_plain_flip 0)
    = Done (flipped short_then_plain_flip 1 (seed short_then_plain_flip 0) 1) /\
  bar long_then_reverse_short 1 (seed long_then_reverse_short 0)
    = Done (flipped long_then_reverse_short 1 (seed long_then_reverse_short 0) (-1)).
Proof.
  assert (1 <= 1 <= INT_MAX)%Z as HX by (vm_compute; split; discriminate).
  split; [|split].
  - apply (proj1 (proj2 (flip_with_and_without_fraction short_then_reverse_long 1
                    (seed short_then_reverse_long 0) 1 HX
                    (signal_in_int_check (rd (sigIn short_then_reverse_long) 1) eq_refl)
                    (state_in_int_check (seed short_then_reverse_long 0) eq_refl)))).
    + vm_compute. reflexivity.
    + left. vm_compute. reflexivity.
  - apply (proj1 (proj2 (flip_with_and_without_fraction short_then_plain_flip 1
                    (seed short_then_plain_flip 0) 1 HX
                    (signal_in_int_check (rd (sigIn short_then_plain_flip) 1) eq_refl)
                    (state_in_int_check (seed short_then_plain_flip 0) eq_refl)))).
    + vm_compute. reflexivity.
    + right. vm_compute. reflexivity.
  - apply (proj2 (proj2 (flip_with_and_without_fraction long_then_reverse_short 1
                    (seed long_then_reverse_short 0) 1 HX
                    (signal_in_int_check (rd (sigIn long_then_reverse_short) 1) eq_refl)
                    (state_in_int_check (seed long_then_reverse_short 0) eq_refl)))).
    + vm_compute. reflexivity.
    + left. vm_compute. reflexivity.
Defined.

Lemma exact_offset_closes_out_witness :
  bar short_then_offset 1 (seed short_then_offset 0)
  = Done (closed_out short_then_offset 1 (seed short_then_offset 0)) /\
  ((1 + 1 < length (cashIdx (seed short_then_offset 0)))%nat ->
   rd (cashIdx (closed_out short_then_offset 1 (seed short_then_offset 0))) (1 + 1) ==
   rd (cashIdx (seed short_then_offset 0)) (1 + 1)
   + liquidation_value (rd (dataIn short_then_offset) (1 + 1)) (BIG_POINT short_then_offset)
       (COST short_then_offset) (openLedger (seed short_then_offset 0))).
Proof.
  apply (exact_offset_closes_out short_then_offset 1 (seed short_then_offset 0)).
  - vm_compute. discriminate.
  - vm_compute. reflexivity.
Defined.

Lemma additive_trade_books_no_cash_witness :
  exists st', bar short_then_more 1 (seed short_then_more 0) = Done st' /\
    cashIdx st' = cashIdx (seed short_then_more 0) /\
    openLedger st' = openLedger (seed short_then_more 0) ++
      [createLineEntry (Z.of_nat 1) (int_cast (rd (sigIn short_then_more) 1))
         (rd (dataIn short_then_more) (1 + 1))] /\
    openPosition st' = (openPosition (seed short_then_more 0)
                        + int_cast (rd (sigIn short_then_more) 1))%Z.
Proof.
  apply (additive_trade_books_no_cash short_then_more 1 (seed short_then_more 0)).
  - apply signal_in_int_check. reflexivity.
  - apply state_in_int_check. reflexivity.
  - apply int_range_check. reflexivity.
  - reflexivity.
  - reflexivity.
Defined.

Lemma short_side_discipline_witness :
  ((openPosition short_two_lots_at_2 < 0)%Z -> all_short (openLedger short_two_lots_at_2)) /\
  (openPosition short_two_lots_at_2 = 0%Z -> openLedger short_two_lots_at_2 = []).
Proof.
  apply (short_side_discipline short_two_lots 0 2 short_two_lots_at_2).
  - reflexivity.
  - exact short_two_lots_reaches_2.
Defined.

Lemma bar_loop_outcomes_witness :
  (exists st, bars invalid_mid_run 0 = Done st) \/
  (exists k, (0 < k < rowsSig invalid_mid_run - 1)%nat /\
             invalid_signal (rd (sigIn invalid_mid_run) k) = true /\
             (forall j, (0 < j < k)%nat ->
                        invalid_signal (rd (sigIn invalid_mid_run) j) = false) /\
             bars invalid_mid_run 0 = Abort (fractionUnknown 295 (rd (sigIn invalid_mid_run) k))).
Proof.
  apply (bar_loop_outcomes invalid_mid_run 0).
  - repeat split; auto.
  - reflexivity.
  - apply run_within_int_check. vm_compute. reflexivity.
Defined.

Lemma knownAdvSig_iff_witness :
  knownAdvSig (- (3 # 2)) = true <-> exists z : Z, - (3 # 2) == inject_Z z + (1 # 2).
Proof.
  apply (knownAdvSig_iff (- (3 # 2))). apply signal_in_int_check. reflexivity.
Defined.
